(** * Link decorator: URI scanner and decoration synchronizer

    A shallow embedding of the TipTap link-decorator plugin
    ([getDecorations], [linkDecorator], [iterateUris]) together with the
    fragment of the JavaScript runtime it relies on: strings as sequences of
    UTF-16 code units, the string methods the scanner calls, and a
    backtracking regular-expression matcher that enumerates matches in the
    priority order of the ECMAScript specification. *)

From Stdlib Require Import String Ascii.
From Stdlib Require Import List Bool Arith NArith ZArith Lia Sorted.
Import ListNotations.

Set Implicit Arguments.

(* ================================================================== *)
(** * JavaScript strings *)
(* ================================================================== *)

Module JS.

(** A string is a sequence of 16-bit code units. *)
Definition CodeUnit := N.
Definition jsstring := list CodeUnit.

Definition cu (a : ascii) : CodeUnit := N_of_ascii a.

(** A string literal of the source text. *)
Definition lit (s : string) : jsstring := map cu (list_ascii_of_string s).

(** [s.substring(i, j)] for [i <= j]. *)
Definition substring (s : jsstring) (i j : nat) : jsstring :=
  firstn (j - i) (skipn i s).

Fixpoint isPrefix (p s : jsstring) : bool :=
  match p, s with
  | [], _ => true
  | a :: p', b :: s' => (a =? b)%N && isPrefix p' s'
  | _ :: _, [] => false
  end.

(** [s.startsWith(p)] (case-sensitive, code unit by code unit). *)
Definition startsWith (s p : jsstring) : bool := isPrefix p s.

(** First position [>= pos] of [s0 ++ s] (where [pos = length s0]) at which
    [sub] occurs. *)
Fixpoint findFrom (sub s : jsstring) (pos : nat) : option nat :=
  if isPrefix sub s then Some pos
  else match s with
       | [] => None
       | _ :: s' => findFrom sub s' (S pos)
       end.

(** [s.indexOf(sub, start)]: the start position is clamped to the length of
    [s]; the result is [-1] when there is no occurrence. *)
Definition indexOf (s sub : jsstring) (start : nat) : Z :=
  let k := Nat.min start (length s) in
  match findFrom sub (skipn k s) k with
  | Some p => Z.of_nat p
  | None => (-1)%Z
  end.

(** [s.includes(sub)]. *)
Definition includes (s sub : jsstring) : bool :=
  negb (indexOf s sub 0 =? -1)%Z.

(** Relative index resolution of [slice]: a negative index counts from the
    end, and the result is clamped to [0 .. len]. *)
Definition relIndex (len : nat) (k : Z) : nat :=
  if (k <? 0)%Z then Z.to_nat (Z.max (Z.of_nat len + k) 0)
  else Nat.min (Z.to_nat k) len.

(** [s.slice(b, e)]. *)
Definition slice (s : jsstring) (b e : Z) : jsstring :=
  let from := relIndex (length s) b in
  let to := relIndex (length s) e in
  firstn (to - from) (skipn from s).

End JS.

Import JS.

(* ================================================================== *)
(** * Regular expressions *)
(* ================================================================== *)

Module RegExp.

(** ** Character classification *)

Definition isLineTerminator (c : CodeUnit) : bool :=
  ((c =? 0x0A) || (c =? 0x0D) || (c =? 0x2028) || (c =? 0x2029))%N.

Definition isWhiteSpace (c : CodeUnit) : bool :=
  ((c =? 0x09) || (c =? 0x0B) || (c =? 0x0C) || (c =? 0x20) || (c =? 0xA0)
   || (c =? 0x1680) || ((0x2000 <=? c) && (c <=? 0x200A))
   || (c =? 0x202F) || (c =? 0x205F) || (c =? 0x3000) || (c =? 0xFEFF))%N.

(** The class [\s]: white space and line terminators. *)
Definition isSpace (c : CodeUnit) : bool :=
  isWhiteSpace c || isLineTerminator c.

(** Case folding of the [i] flag.  Only the ASCII letters are folded: a code
    unit outside ASCII never folds to an ASCII one (the standard forbids it),
    and every class of the patterns below is made of ASCII characters or of
    [\s] / [\S], whose members have no case variants across the class
    border, so the folding of the other letters does not change any match. *)
Definition toUpper (c : CodeUnit) : CodeUnit :=
  if ((0x61 <=? c) && (c <=? 0x7A))%N then (c - 32)%N else c.

Definition toLower (c : CodeUnit) : CodeUnit :=
  if ((0x41 <=? c) && (c <=? 0x5A))%N then (c + 32)%N else c.

Definition canonicalize (ignoreCase : bool) (c : CodeUnit) : CodeUnit :=
  if ignoreCase then toUpper c else c.

(** ** Syntax *)

Inductive ClassAtom :=
| CChar (c : CodeUnit)          (* a single character *)
| CRange (lo hi : CodeUnit)     (* lo-hi *)
| CSpace                        (* \s *)
| CNonSpace.                    (* \S *)

(** A character class [[...]] is the union of its atoms; a literal character
    of a pattern is the class of that one character. *)
Definition CharClass := list ClassAtom.

Inductive Regex :=
| Bol                           (* ^ *)
| Eol                           (* $ *)
| Class (cs : CharClass)
| Seq (r1 r2 : Regex)
| Alt (r1 r2 : Regex)
| Quest (r : Regex)             (* r? *)
| Star (r : Regex)              (* r* *)
| Plus (r : Regex)              (* r+ *)
| Group (n : nat) (r : Regex).  (* the n-th capturing parenthesis *)

Record Flags := { ignoreCase : bool; multiline : bool }.

Definition chr (a : ascii) : Regex := Class [CChar (cu a)].

Fixpoint seqs (rs : list Regex) (last : Regex) : Regex :=
  match rs with
  | [] => last
  | r :: rs' => Seq r (seqs rs' last)
  end.

(** The capturing parentheses inside a term. *)
Fixpoint groups (r : Regex) : list nat :=
  match r with
  | Bol | Eol | Class _ => []
  | Seq r1 r2 | Alt r1 r2 => groups r1 ++ groups r2
  | Quest r' | Star r' | Plus r' => groups r'
  | Group n r' => n :: groups r'
  end.

(** The character classes of a term. *)
Fixpoint classes (r : Regex) : list CharClass :=
  match r with
  | Bol | Eol => []
  | Class cs => [cs]
  | Seq r1 r2 | Alt r1 r2 => classes r1 ++ classes r2
  | Quest r' | Star r' | Plus r' | Group _ r' => classes r'
  end.

(** ** Matching *)

Definition inAtom (a : ClassAtom) (c : CodeUnit) : bool :=
  match a with
  | CChar c' => (c =? c')%N
  | CRange lo hi => ((lo <=? c) && (c <=? hi))%N
  | CSpace => isSpace c
  | CNonSpace => negb (isSpace c)
  end.

Definition inClass (cs : CharClass) (c : CodeUnit) : bool :=
  existsb (fun a => inAtom a c) cs.

(** A character matches a class when some member of the class has the same
    canonical form.  With ASCII folding the members to try are the character
    itself and its two case variants. *)
Definition classMatches (fl : Flags) (cs : CharClass) (c : CodeUnit) : bool :=
  if ignoreCase fl
  then inClass cs c || inClass cs (toUpper c) || inClass cs (toLower c)
  else inClass cs c.

(** Two ranges of ASCII used to classify the members of a class. *)
Definition isVisibleAscii (c : CodeUnit) : bool :=
  ((0x21 <=? c) && (c <=? 0x7E))%N.

Definition isAsciiLetter (c : CodeUnit) : bool :=
  (((0x41 <=? c) && (c <=? 0x5A)) || ((0x61 <=? c) && (c <=? 0x7A)))%N.

(** Atoms made of lower-case ASCII letters only. *)
Definition lowerAtom (a : ClassAtom) : bool :=
  match a with
  | CChar k => ((0x61 <=? k) && (k <=? 0x7A))%N
  | CRange lo hi => ((0x61 <=? lo) && (hi <=? 0x7A))%N
  | _ => false
  end.

(** Atoms that hold no white space: [\S], and visible ASCII. *)
Definition visibleAtom (a : ClassAtom) : bool :=
  match a with
  | CChar k => isVisibleAscii k
  | CRange lo hi => ((0x21 <=? lo) && (hi <=? 0x7E))%N
  | CSpace => false
  | CNonSpace => true
  end.

(** A match state: the position reached and the captures made so far, as
    pairs of a parenthesis number and the [start, end) range it matched. *)
Record MatchState := mkState {
  endIndex : nat;
  captures : list (nat * (nat * nat))
}.

Fixpoint capture (n : nat) (caps : list (nat * (nat * nat)))
  : option (nat * nat) :=
  match caps with
  | [] => None
  | (k, v) :: caps' => if k =? n then Some v else capture n caps'
  end.

Definition dropCaptures (gs : list nat) (caps : list (nat * (nat * nat))) :=
  filter (fun kv => negb (existsb (Nat.eqb (fst kv)) gs)) caps.

Definition setCapture (n : nat) (v : nat * nat) (x : MatchState) : MatchState :=
  mkState (endIndex x) ((n, v) :: dropCaptures [n] (captures x)).

(** Entering a quantified term forgets the captures of the parentheses
    inside it. *)
Definition clearGroups (gs : list nat) (x : MatchState) : MatchState :=
  mkState (endIndex x) (dropCaptures gs (captures x)).

Section Matcher.
Variable fl : Flags.
Variable input : jsstring.

Definition atBol (e : nat) : bool :=
  match e with
  | 0 => true
  | S e' => multiline fl &&
            match nth_error input e' with
            | Some c => isLineTerminator c
            | None => false
            end
  end.

Definition atEol (e : nat) : bool :=
  (e =? length input) ||
  (multiline fl &&
   match nth_error input e with
   | Some c => isLineTerminator c
   | None => false
   end).

(** The greedy loop of [r*] after its lower bound is met: an iteration
    that consumes nothing is rejected, so every iteration advances and
    [fuel = length input - endIndex x] iterations are never exceeded. *)
Fixpoint star (step : MatchState -> list MatchState) (fuel : nat)
         (x : MatchState) : list MatchState :=
  match fuel with
  | 0 => [x]
  | S fuel' =>
      flat_map (fun y => if endIndex y =? endIndex x then []
                         else star step fuel' y)
               (step x)
      ++ [x]
  end.

(** [runs r x] lists every way of matching [r] from state [x], in the
    order in which the backtracking matcher of the standard tries them:
    the head of the list is the match it returns. *)
Fixpoint runs (r : Regex) (x : MatchState) : list MatchState :=
  match r with
  | Bol => if atBol (endIndex x) then [x] else []
  | Eol => if atEol (endIndex x) then [x] else []
  | Class cs =>
      match nth_error input (endIndex x) with
      | Some c => if classMatches fl cs c
                  then [mkState (S (endIndex x)) (captures x)]
                  else []
      | None => []
      end
  | Seq r1 r2 => flat_map (runs r2) (runs r1 x)
  | Alt r1 r2 => runs r1 x ++ runs r2 x
  | Quest r' =>
      filter (fun y => negb (endIndex y =? endIndex x))
             (runs r' (clearGroups (groups r') x))
      ++ [x]
  | Star r' =>
      star (fun x' => runs r' (clearGroups (groups r') x'))
           (length input - endIndex x) x
  | Plus r' =>
      flat_map (fun y => star (fun x' => runs r' (clearGroups (groups r') x'))
                              (length input - endIndex y) y)
               (runs r' (clearGroups (groups r') x))
  | Group n r' =>
      map (fun y => setCapture n (endIndex x, endIndex y) y) (runs r' x)
  end.

(** The matches of a term as a relation, without their order: [Matches r x y]
    when [r] can take the matcher from state [x] to state [y]. *)
Inductive Matches : Regex -> MatchState -> MatchState -> Prop :=
| MBol x :
    atBol (endIndex x) = true -> Matches Bol x x
| MEol x :
    atEol (endIndex x) = true -> Matches Eol x x
| MClass cs x c :
    nth_error input (endIndex x) = Some c ->
    classMatches fl cs c = true ->
    Matches (Class cs) x (mkState (S (endIndex x)) (captures x))
| MSeq r1 r2 x y z :
    Matches r1 x y -> Matches r2 y z -> Matches (Seq r1 r2) x z
| MAltL r1 r2 x y :
    Matches r1 x y -> Matches (Alt r1 r2) x y
| MAltR r1 r2 x y :
    Matches r2 x y -> Matches (Alt r1 r2) x y
| MQuestSkip r x :
    Matches (Quest r) x x
| MQuestTake r x y :
    Matches r (clearGroups (groups r) x) y ->
    endIndex y <> endIndex x ->
    Matches (Quest r) x y
| MStarStop r x :
    Matches (Star r) x x
| MStarStep r x y z :
    Matches r (clearGroups (groups r) x) y ->
    endIndex y <> endIndex x ->
    Matches (Star r) y z ->
    Matches (Star r) x z
| MPlus r x y z :
    Matches r (clearGroups (groups r) x) y ->
    Matches (Star r) y z ->
    Matches (Plus r) x z
| MGroup n r x y :
    Matches r x y ->
    Matches (Group n r) x (setCapture n (endIndex x, endIndex y) y).

Definition matchAt (r : Regex) (i : nat) : option MatchState :=
  hd_error (runs r (mkState i [])).

(** The result of a successful [exec]: [index] is where the match starts,
    the end of the match is the [lastIndex] a global expression keeps. *)
Record MatchResult := mkResult {
  index : nat;
  final : MatchState
}.

Fixpoint firstMatch (r : Regex) (starts : list nat) : option MatchResult :=
  match starts with
  | [] => None
  | i :: starts' =>
      match matchAt r i with
      | Some y => Some (mkResult i y)
      | None => firstMatch r starts'
      end
  end.

(** [re.exec(input)] with [re.lastIndex = lastIndex]: the start positions
    [lastIndex], ..., [length input] are tried in turn; no position is
    tried when [lastIndex] is past the end. *)
Definition exec (r : Regex) (lastIndex : nat) : option MatchResult :=
  firstMatch r (seq lastIndex (S (length input) - lastIndex)).

(** [match[n]]: the text of the n-th parenthesis, [None] for [undefined]. *)
Definition group (m : MatchResult) (n : nat) : option jsstring :=
  match capture n (captures (final m)) with
  | Some (s, e) => Some (substring input s e)
  | None => None
  end.

Definition lastIndexOf (m : MatchResult) : nat := endIndex (final m).

(** [re.test(input)] for an expression without the [g] flag. *)
Definition test (r : Regex) : bool :=
  match exec r 0 with Some _ => true | None => false end.

End Matcher.

End RegExp.

Import RegExp.

(* ================================================================== *)
(** * Outcomes *)
(* ================================================================== *)

(** A computation returns a value, throws a [TypeError] (a method called on
    [undefined]), or is cut off by the bound put on its loop. *)
Inductive result (A : Type) : Type :=
| Ok (a : A)
| TypeError
| OutOfFuel.

Arguments TypeError {A}.
Arguments OutOfFuel {A}.

Definition bind {A B : Type} (r : result A) (k : A -> result B) : result B :=
  match r with
  | Ok a => k a
  | TypeError => TypeError
  | OutOfFuel => OutOfFuel
  end.

Notation "x <- e ;; k" := (bind e (fun x => k))
  (at level 61, e at next level, right associativity).

(** [xs.forEach(f)] where [f] updates a state and may throw. *)
Fixpoint forEach {A St : Type} (xs : list A) (f : A -> St -> result St)
         (s : St) : result St :=
  match xs with
  | [] => Ok s
  | x :: xs' => s' <- f x s ;; forEach xs' f s'
  end.

(* ================================================================== *)
(** * The URI scanner *)
(* ================================================================== *)

Definition lower : CharClass := [CRange (cu "a") (cu "z")].
Definition alnum : CharClass :=
  [CRange (cu "a") (cu "z"); CRange (cu "0") (cu "9")].
Definition nonSpace : CharClass := [CNonSpace].

(** [(^|\s|\()] *)
Definition rePrefix : Regex :=
  Group 1 (Alt Bol (Alt (Class [CSpace]) (chr "("))).

(** [(https?:\/\/[\S]+)] *)
Definition reScheme : Regex :=
  Group 3 (seqs [chr "h"; chr "t"; chr "t"; chr "p"; Quest (chr "s");
                 chr ":"; chr "/"; chr "/"]
                (Plus (Class nonSpace))).

(** [(?<domain>[a-z][a-z0-9]*(\.[a-z0-9]+)+)] *)
Definition reDomain : Regex :=
  Group 5 (seqs [Class lower; Star (Class alnum)]
                (Plus (Group 6 (Seq (chr ".") (Plus (Class alnum)))))).

(** The bare-domain alternative: the [domain] parenthesis followed by
    [[\S]*], the whole in parenthesis 4. *)
Definition reBare : Regex :=
  Group 4 (Seq reDomain (Star (Class nonSpace))).

(** The expression of [iterateUris], with the flags [gim]: the prefix
    parenthesis, then parenthesis 2 around the two alternatives
    [(https?:\/\/[\S]+)] and [((?<domain>[a-z][a-z0-9]*(\.[a-z0-9]+)+)[\S]* )]. *)
Definition reUri : Regex :=
  Seq rePrefix (Group 2 (Alt reScheme reBare)).

Definition flagsUri : Flags := {| ignoreCase := true; multiline := true |}.

(** The number of the named parenthesis [domain]. *)
Definition domainGroup : nat := 5.

(** [/[.,;!?]$/] and [/[)]$/], no flags. *)
Definition rePunctEnd : Regex :=
  Seq (Class [CChar (cu "."); CChar (cu ","); CChar (cu ";");
              CChar (cu "!"); CChar (cu "?")]) Eol.
Definition reParenEnd : Regex := Seq (Class [CChar (cu ")")]) Eol.

Definition noFlags : Flags := {| ignoreCase := false; multiline := false |}.

(** The local variables of one loop iteration at the call [cb(from, to)]. *)
Record Candidate := mkCandidate {
  cand_match : jsstring;   (* match[2] *)
  cand_from : Z;
  cand_to : Z;
  cand_uri : jsstring
}.

(** [if (/[.,;!?]$/.test(uri)) { uri = uri.slice(0, -1); to-- }] *)
Definition stripPunct (st : jsstring * Z) : jsstring * Z :=
  let (uri, to) := st in
  if test noFlags uri rePunctEnd then (slice uri 0 (-1), (to - 1)%Z)
  else (uri, to).

(** [if (/[)]$/.test(uri) && !uri.includes('(')) { uri = uri.slice(0, -1); to-- }] *)
Definition stripParen (st : jsstring * Z) : jsstring * Z :=
  let (uri, to) := st in
  if test noFlags uri reParenEnd && negb (includes uri (lit "("))
  then (slice uri 0 (-1), (to - 1)%Z)
  else (uri, to).

Section Scanner.

Variable isValidDomain : jsstring -> bool.
Variable str : jsstring.

(** The [if] at the head of the loop body: the value of [uri] after it, or
    [None] when the iteration is abandoned by [continue].  [domain] is
    [match.groups?.domain]; it is falsy when undefined or empty. *)
Definition resolveUri (uri : jsstring) (domain : option jsstring)
  : option jsstring :=
  if negb (startsWith uri (lit "http")) then
    match domain with
    | None => None
    | Some domain =>
        if (match domain with [] => true | _ => false end)
           || negb (isValidDomain domain)
        then None
        else Some (lit "https://" ++ uri)
    end
  else Some uri.

(** One iteration of the loop body, up to the call of the callback.
    [match[2]] is read as it is; were it undefined, [uri.startsWith] would
    throw. *)
Definition body (m : MatchResult) : result (option Candidate) :=
  match group str m 2 with
  | None => TypeError
  | Some m2 =>
      match resolveUri m2 (group str m domainGroup) with
      | None => Ok None
      | Some uri =>
          let from := indexOf str m2 (index m) in
          let to := (from + Z.of_nat (length m2) + 1)%Z in
          let (uri', to') := stripParen (stripPunct (uri, to)) in
          Ok (Some (mkCandidate m2 from to' uri'))
      end
  end.

(** [while ((match = re.exec(str))) { ... cb(from, to) }], the state of the
    callback threaded through; [fuel] bounds the number of calls of [exec]. *)
Fixpoint whileExec {St : Type} (cb : Z -> Z -> St -> St)
         (fuel lastIndex : nat) (s : St) : result St :=
  match fuel with
  | 0 => OutOfFuel
  | S fuel' =>
      match exec flagsUri str reUri lastIndex with
      | None => Ok s
      | Some m =>
          c <- body m ;;
          match c with
          | None => whileExec cb fuel' (lastIndexOf m) s
          | Some c => whileExec cb fuel' (lastIndexOf m)
                                (cb (cand_from c) (cand_to c) s)
          end
      end
  end.

(** The same loop, recording the candidates instead of calling back. *)
Fixpoint candidatesFrom (fuel lastIndex : nat) : result (list Candidate) :=
  match fuel with
  | 0 => OutOfFuel
  | S fuel' =>
      match exec flagsUri str reUri lastIndex with
      | None => Ok []
      | Some m =>
          c <- body m ;;
          cs <- candidatesFrom fuel' (lastIndexOf m) ;;
          match c with
          | None => Ok cs
          | Some c => Ok (c :: cs)
          end
      end
  end.

(** [iterateUris(str, cb)]: a fresh expression object starts at
    [lastIndex = 0]; every match consumes at least one character, so
    [length str + 1] calls of [exec] are enough. *)
Definition iterateUris {St : Type} (cb : Z -> Z -> St -> St) (s : St)
  : result St :=
  whileExec cb (S (length str)) 0 s.

Definition candidates : result (list Candidate) :=
  candidatesFrom (S (length str)) 0.

(** The arguments of the successive calls of the callback. *)
Definition spans : result (list (Z * Z)) :=
  iterateUris (fun from to log => log ++ [(from, to)]) [].

End Scanner.

(* ================================================================== *)
(** * Documents and decorations *)
(* ================================================================== *)

Module ProseMirror.

(** Modelled from the spec: the document tree of the host editor (the
    ProseMirror [Node] class is not part of the repository).  A document is
    a tree of blocks; text sits in text nodes; a leaf is an atom without
    content (a hard break).  Positions count one token for a leaf, one per
    code unit of text, and one on each side of a node with content. *)
#[warnings="-register-all"]
Inductive Node :=
| TextNode (text : jsstring)
| LeafNode (name : string)
| ElemNode (name : string) (content : list Node).

(** [node.type.name] *)
Definition typeName (n : Node) : string :=
  match n with
  | TextNode _ => "text"
  | LeafNode name => name
  | ElemNode name _ => name
  end.

(** [node.nodeSize] *)
Fixpoint nodeSize (n : Node) : Z :=
  match n with
  | TextNode text => Z.of_nat (length text)
  | LeafNode _ => 1
  | ElemNode _ content =>
      2 + (fix sizes (ns : list Node) : Z :=
             match ns with
             | [] => 0
             | c :: ns' => nodeSize c + sizes ns'
             end) content
  end%Z.

(** [node.textContent]: the flattened text, nothing between blocks. *)
Fixpoint textContent (n : Node) : jsstring :=
  match n with
  | TextNode text => text
  | LeafNode _ => []
  | ElemNode _ content =>
      (fix texts (ns : list Node) : jsstring :=
         match ns with
         | [] => []
         | c :: ns' => textContent c ++ texts ns'
         end) content
  end.

Record NodeWithPos := mkNodeWithPos { node : Node; pos : Z }.

(** A node at position [p], followed by its descendants in document order;
    the content of a node at [p] starts at [p + 1]. *)
Fixpoint walk (n : Node) (p : Z) : list NodeWithPos :=
  mkNodeWithPos n p ::
  match n with
  | ElemNode _ content =>
      (fix walkAll (ns : list Node) (q : Z) : list NodeWithPos :=
         match ns with
         | [] => []
         | c :: ns' => walk c q ++ walkAll ns' (q + nodeSize c)%Z
         end) content (p + 1)%Z
  | _ => []
  end.

Fixpoint walkAll (ns : list Node) (q : Z) : list NodeWithPos :=
  match ns with
  | [] => []
  | c :: ns' => walk c q ++ walkAll ns' (q + nodeSize c)%Z
  end.

(** [doc.descendants]: every node below [doc] with its position; the
    content of the document starts at position 0. *)
Definition descendants (doc : Node) : list NodeWithPos :=
  match doc with
  | ElemNode _ content => walkAll content 0
  | _ => []
  end.

(** [findChildren(doc, predicate)] of the editor toolkit. *)
Definition findChildren (doc : Node) (predicate : Node -> bool)
  : list NodeWithPos :=
  filter (fun np => predicate (node np)) (descendants doc).

(** Modelled from the spec: a decoration (ProseMirror's [Decoration] is not
    part of the repository) is a position range with a style class; it does
    not own document content. *)
Record Decoration := mkDecoration {
  deco_from : Z;
  deco_to : Z;
  styleClass : string
}.

(** [Decoration.inline(from, to, {class})] *)
Definition inline (from to : Z) (class : string) : Decoration :=
  mkDecoration from to class.

(** Modelled from the spec: the decoration set (ProseMirror's
    [DecorationSet] is not part of the repository) is the ordered collection
    of the decorations of one revision. *)
Definition DecorationSet := list Decoration.

(** [DecorationSet.create(doc, decorations)] *)
Definition create (doc : Node) (decorations : list Decoration)
  : DecorationSet := decorations.

(** Modelled from the spec: the position-translation function of a change
    maps a position of the old revision to its position in the new one, or
    reports that the position was deleted ([None]). *)
Definition Mapping := Z -> option Z.

(** Modelled from the spec: remapping ([DecorationSet.map] is not part of
    the repository) translates [from] and [to] of every decoration through
    the mapping and keeps its style class; a decoration with a deleted
    position is dropped. *)
Definition mapDecoration (mapping : Mapping) (d : Decoration)
  : option Decoration :=
  match mapping (deco_from d), mapping (deco_to d) with
  | Some from, Some to => Some (mkDecoration from to (styleClass d))
  | _, _ => None
  end.

Fixpoint mapSet (set : DecorationSet) (mapping : Mapping) (doc : Node)
  : DecorationSet :=
  match set with
  | [] => []
  | d :: set' =>
      match mapDecoration mapping d with
      | Some d' => d' :: mapSet set' mapping doc
      | None => mapSet set' mapping doc
      end
  end.

(** Modelled from the spec: a change event carries the revision before the
    change, the new revision, whether the document changed (ProseMirror's
    [docChanged]: the transaction has at least one step), and the
    position-translation function of the change. *)
Record Transaction := mkTransaction {
  before : Node;
  doc : Node;
  docChanged : bool;
  mapping : Mapping
}.

End ProseMirror.

Import ProseMirror.

Section Plugin.

Variable isValidDomain : jsstring -> bool.

(** [getDecorations(doc)]: the array [decorations] is the state threaded
    through the two nested callbacks. *)
Definition getDecorations (doc : Node) : result DecorationSet :=
  decorations <-
    forEach (findChildren doc (fun node => String.eqb (typeName node) "paragraph"))
      (fun paragraphNode decorations =>
         let textContent := textContent (node paragraphNode) in
         iterateUris isValidDomain textContent
           (fun from to decorations =>
              decorations ++
              [inline (pos paragraphNode + from) (pos paragraphNode + to)
                      "autolink"])
           decorations)
      [] ;;
  Ok (create doc decorations).

(** The [state] field of the plugin of [linkDecorator]. *)
Definition init (doc : Node) : result DecorationSet := getDecorations doc.

Definition apply (transaction : Transaction) (decorationSet : DecorationSet)
  : result DecorationSet :=
  if docChanged transaction then getDecorations (doc transaction)
  else Ok (mapSet decorationSet (mapping transaction) (doc transaction)).

End Plugin.

(* ================================================================== *)
(** * The specification's reading of trimming and of initialization *)
(* ================================================================== *)

Definition lastChar (s : jsstring) : option CodeUnit :=
  match rev s with
  | [] => None
  | c :: _ => Some c
  end.

Definition isTrailingPunct (c : CodeUnit) : bool :=
  ((c =? cu ".") || (c =? cu ",") || (c =? cu ";") || (c =? cu "!")
   || (c =? cu "?"))%N.

(** Step 1 of boundary trimming, after the specification: a last character
    among [. , ; ! ?] is stripped and [to] shrinks by one. *)
Definition spec_trimPunct (st : jsstring * Z) : jsstring * Z :=
  match lastChar (fst st) with
  | Some c => if isTrailingPunct c
              then (removelast (fst st), (snd st - 1)%Z) else st
  | None => st
  end.

(** Step 2, after the specification: a last character [)] is stripped, and
    [to] shrinks by one, when the candidate contains no [(]. *)
Definition spec_trimParen (st : jsstring * Z) : jsstring * Z :=
  match lastChar (fst st) with
  | Some c => if (c =? cu ")")%N && negb (existsb (N.eqb (cu "(")) (fst st))
              then (removelast (fst st), (snd st - 1)%Z) else st
  | None => st
  end.

Definition spec_trim (st : jsstring * Z) : jsstring * Z :=
  spec_trimParen (spec_trimPunct st).

(** The decorations of one text block, after the specification: one per
    candidate span, at the block position plus the span offsets. *)
Definition spec_blockDecorations (block : NodeWithPos) (sp : list (Z * Z))
  : list Decoration :=
  map (fun ft => mkDecoration (pos block + fst ft) (pos block + snd ft)
                              "autolink") sp.

(* ================================================================== *)
(** * The shape of matches and candidates *)
(* ================================================================== *)

Section Shapes.

Variable str : jsstring.

(** What precedes the link text of a match that starts at [i], the link
    text starting at [s]. *)
Definition Preceded (i s : nat) : Prop :=
  (s = i /\ atBol flagsUri str i = true) \/
  (s = S i /\ exists c, nth_error str i = Some c /\
                        (isSpace c = true \/ c = cu "(")).

(** The shape of every match of the URI expression that starts at [i]. *)
Record UriMatch (i : nat) (y : MatchState) (s : nat) : Prop := {
  um_prefix : capture 1 (captures y) = Some (i, s);
  um_link : capture 2 (captures y) = Some (s, endIndex y);
  um_preceded : Preceded i s;
  um_long : s + 3 <= endIndex y;
  um_bound : endIndex y <= length str;
  um_letter : exists c, nth_error str s = Some c /\ isAsciiLetter c = true;
  um_chars : forall k, s <= k < endIndex y ->
             exists c, nth_error str k = Some c /\ isSpace c = false
}.

(** What is known of a candidate passed to the callback: it comes from a
    match that starts at [i], whose link text is [str[s .. e)]. *)
Record Emitted (i s e : nat) (c : Candidate) : Prop := {
  em_preceded : Preceded i s;
  em_long : s + 3 <= e;
  em_bound : e <= length str;
  em_letter : exists ch, nth_error str s = Some ch /\ isAsciiLetter ch = true;
  em_chars : forall k, s <= k < e ->
             exists ch, nth_error str k = Some ch /\ isSpace ch = false;
  em_match : cand_match c = substring str s e;
  em_from : cand_from c = Z.of_nat s;
  em_trim : exists u0,
      (u0 = cand_match c \/ u0 = lit "https://" ++ cand_match c) /\
      (cand_uri c, cand_to c) = spec_trim (u0, (Z.of_nat e + 1)%Z)
}.

(** The candidates of a scan that resumes at [lastIndex]: each comes from a
    match that starts at or after the end of the previous one. *)
Inductive Chain : nat -> list Candidate -> Prop :=
| Chain_nil lastIndex : Chain lastIndex []
| Chain_cons lastIndex i s e c cs :
    lastIndex <= i -> Emitted i s e c -> Chain e cs ->
    Chain lastIndex (c :: cs).

End Shapes.

(** The span of a candidate, and the order of two spans: the first starts
    before the second and ends no later than the second starts. *)
Definition Before (a b : Z * Z) : Prop :=
  (fst a < fst b /\ snd a <= fst b)%Z.

Definition spanOf (c : Candidate) : Z * Z := (cand_from c, cand_to c).

Section SpecDecorations.

Variable isValidDomain : jsstring -> bool.

(** The spans the scanner passes to its callback. *)
Definition spanList (str : jsstring) : list (Z * Z) :=
  match spans isValidDomain str with
  | Ok l => l
  | _ => []
  end.

Definition isParagraph (n : Node) : bool := String.eqb (typeName n) "paragraph".

(** The decorations of a document, after the specification: those of its
    paragraph blocks, in document order. *)
Definition spec_decorations (doc : Node) : list Decoration :=
  flat_map (fun block =>
              spec_blockDecorations block (spanList (textContent (node block))))
           (filter (fun block => isParagraph (node block)) (descendants doc)).

End SpecDecorations.

(** The paragraph [http://a.bc] split in two after [http:]: a change with
    one step that keeps every character. *)
Definition splitBefore : Node :=
  ElemNode "doc" [ElemNode "paragraph" [TextNode (lit "http://a.bc")]].

Definition splitAfter : Node :=
  ElemNode "doc" [ElemNode "paragraph" [TextNode (lit "http:")];
                  ElemNode "paragraph" [TextNode (lit "//a.bc")]].

Definition splitParagraph : Transaction :=
  mkTransaction splitBefore splitAfter true
                (fun p => Some (if (p <? 6)%Z then p else (p + 2)%Z)).

(** A document with a paragraph, a heading, and a paragraph inside a block
    quote whose text is interrupted by a hard break. *)
Definition sampleDoc : Node :=
  ElemNode "doc"
    [ElemNode "paragraph" [TextNode (lit "see http://a.b")];
     ElemNode "heading" [TextNode (lit "http://c.d")];
     ElemNode "blockquote"
       [ElemNode "paragraph"
          [TextNode (lit "at "); LeafNode "hardBreak";
           TextNode (lit "http://e.f.")]]].

(* ================================================================== *)
(** * Further notions: greedy ends, trimmed characters, the editor *)
(* ================================================================== *)

(** A term whose every match ends with a greedy run of [\S]: its last
    factor is [[\S]*] or [[\S]+]. *)
Fixpoint endsGreedy (r : Regex) : bool :=
  match r with
  | Seq _ r2 => endsGreedy r2
  | Alt r1 r2 => endsGreedy r1 && endsGreedy r2
  | Group _ r' => endsGreedy r'
  | Star (Class [CNonSpace]) | Plus (Class [CNonSpace]) => true
  | _ => false
  end.

(** The position [e] is the end of the input or holds white space. *)
Definition atTokenEnd (str : jsstring) (e : nat) : Prop :=
  match nth_error str e with
  | Some c => isSpace c = true
  | None => True
  end.

(** Letters and digits of ASCII. *)
Definition isAsciiAlnum (c : CodeUnit) : bool :=
  isAsciiLetter c || ((0x30 <=? c) && (c <=? 0x39))%N.

(** The characters the two trimming steps can take away. *)
Definition isTrimmable (c : CodeUnit) : bool :=
  isTrailingPunct c || (c =? cu ")")%N.

(** Modelled from the spec: the editor state as the plugin sees it
    (ProseMirror's [EditorState] is not part of the repository): the current
    revision and the value of the state field of the plugin. *)
Record EditorState := mkEditorState {
  currentDoc : Node;
  pluginState : DecorationSet
}.

Section Editor.

Variable isValidDomain : jsstring -> bool.

(** The state on attachment: the field is initialised by [init]. *)
Definition createState (doc : Node) : result EditorState :=
  set <- init isValidDomain doc ;;
  Ok (mkEditorState doc set).

(** The state after a change event: the field is updated by [apply]. *)
Definition applyTransaction (state : EditorState) (tr : Transaction)
  : result EditorState :=
  set <- apply isValidDomain tr (pluginState state) ;;
  Ok (mkEditorState (doc tr) set).

Fixpoint applyTransactions (state : EditorState) (trs : list Transaction)
  : result EditorState :=
  match trs with
  | [] => Ok state
  | tr :: trs' =>
      state' <- applyTransaction state tr ;;
      applyTransactions state' trs'
  end.

(** [props.decorations(state)]: the value of the state field. *)
Definition decorations (state : EditorState) : DecorationSet :=
  pluginState state.

End Editor.

(** Modelled from the spec: the change events the host delivers, one after
    the other, starting from the revision [d].  Each starts from the current
    revision, and an event whose [docChanged] flag is not set has no step:
    it keeps the revision and translates every position to itself. *)
Fixpoint Delivered (d : Node) (trs : list Transaction) : Prop :=
  match trs with
  | [] => True
  | tr :: trs' =>
      before tr = d /\
      (docChanged tr = false ->
       doc tr = d /\ forall p, mapping tr p = Some p) /\
      Delivered (doc tr) trs'
  end.

(** The revision reached after the events [trs]. *)
Definition lastDoc (d : Node) (trs : list Transaction) : Node :=
  fold_left (fun _ tr => doc tr) trs d.

Section Iterations.

Variable isValidDomain : jsstring -> bool.
Variable str : jsstring.

(** Everything known of the candidate of one iteration: where its link
    text lies, how it ends, and how [uri] and [to] derive from it. *)
Record Iteration (m : MatchResult) (c : Candidate) (s e : nat) : Prop := {
  it_match : cand_match c = substring str s e;
  it_from : cand_from c = Z.of_nat s;
  it_long : s + 3 <= e;
  it_bound : e <= length str;
  it_end : atTokenEnd str e;
  it_letter : exists ch, nth_error str s = Some ch /\ isAsciiLetter ch = true;
  it_chars : forall k, s <= k < e ->
             exists ch, nth_error str k = Some ch /\ isSpace ch = false;
  it_separator : exists k ch, s <= k < e /\ nth_error str k = Some ch /\
                              (ch = cu "." \/ ch = cu ":");
  it_domain : forall d, group str m domainGroup = Some d ->
                        isPrefix d (cand_match c) = true;
  it_label : group str m domainGroup <> None ->
             exists k, s < k < e /\ nth_error str k = Some (cu ".") /\
               forall j, s <= j < k ->
                 exists ch, nth_error str j = Some ch /\
                            isAsciiAlnum ch = true;
  it_resolve : exists u0,
      resolveUri isValidDomain (cand_match c) (group str m domainGroup)
      = Some u0 /\
      (cand_uri c, cand_to c) = spec_trim (u0, (Z.of_nat e + 1)%Z)
}.

End Iterations.

(** Three change events on [sampleDoc]: a selection change, the split of
    its first paragraph after [see ], and another selection change. *)
Definition sampleSplit : Node :=
  ElemNode "doc"
    [ElemNode "paragraph" [TextNode (lit "see ")];
     ElemNode "paragraph" [TextNode (lit "http://a.b")];
     ElemNode "heading" [TextNode (lit "http://c.d")];
     ElemNode "blockquote"
       [ElemNode "paragraph"
          [TextNode (lit "at "); LeafNode "hardBreak";
           TextNode (lit "http://e.f.")]]].

Definition sampleEvents : list Transaction :=
  [mkTransaction sampleDoc sampleDoc false (fun p => Some p);
   mkTransaction sampleDoc sampleSplit true
                 (fun p => Some (if (p <? 5)%Z then p else (p + 2)%Z));
   mkTransaction sampleSplit sampleSplit false (fun p => Some p)].

(** Terms with an end-of-input or a start-of-line assertion. *)
Fixpoint hasEol (r : Regex) : bool :=
  match r with
  | Eol => true
  | Bol | Class _ => false
  | Seq r1 r2 | Alt r1 r2 => hasEol r1 || hasEol r2
  | Quest r' | Star r' | Plus r' | Group _ r' => hasEol r'
  end.

Fixpoint hasBol (r : Regex) : bool :=
  match r with
  | Bol => true
  | Eol | Class _ => false
  | Seq r1 r2 | Alt r1 r2 => hasBol r1 || hasBol r2
  | Quest r' | Star r' | Plus r' | Group _ r' => hasBol r'
  end.

(** A match state of a text and the state of the same match in a longer
    text, [k] positions further: the positions agree up to [k]; the first
    parenthesis, which may hold the character before the text, is left
    out. *)
Definition shiftRange (k : nat) (v : nat * nat) : nat * nat :=
  (fst v + k, snd v + k).

Definition Shifted (k : nat) (x x' : MatchState) : Prop :=
  endIndex x' = endIndex x + k /\
  forall g, g <> 1 ->
    capture g (captures x') = option_map (shiftRange k) (capture g (captures x)).

(** Two results of [exec], the second [k] positions further than the
    first. *)
Definition ShiftedExec (k : nat) (r r' : option MatchResult) : Prop :=
  match r, r' with
  | None, None => True
  | Some m, Some m' => Shifted k (final m) (final m')
  | _, _ => False
  end.

(** A candidate moved [k] positions to the right. *)
Definition shiftCandidate (k : Z) (c : Candidate) : Candidate :=
  mkCandidate (cand_match c) (cand_from c + k) (cand_to c + k) (cand_uri c).

Definition shiftSpan (k : Z) (ft : Z * Z) : Z * Z := (fst ft + k, snd ft + k)%Z.

(** The loop body after [match[2]], [match.groups?.domain] and [from] have
    been read. *)
Definition candidateOf (isValidDomain : jsstring -> bool) (m2 : jsstring)
           (domain : option jsstring) (from : Z) : option Candidate :=
  match resolveUri isValidDomain m2 domain with
  | None => None
  | Some uri =>
      let to := (from + Z.of_nat (length m2) + 1)%Z in
      let (uri', to') := stripParen (stripPunct (uri, to)) in
      Some (mkCandidate m2 from to' uri')
  end.

(** The candidates of a scan that resumes at [lastIndex]. *)
Definition scanFrom (isValidDomain : jsstring -> bool) (str : jsstring)
           (lastIndex : nat) : list Candidate :=
  match candidatesFrom isValidDomain str (S (length str)) lastIndex with
  | Ok cs => cs
  | _ => []
  end.

(* ================================================================== *)
(** * Facts about the string methods *)
(* ================================================================== *)

Section StringFacts.

Implicit Types s p sub : jsstring.

Lemma isPrefix_firstn s n : isPrefix (firstn n s) s = true.
Proof.
  revert n; induction s as [|c s IH]; intros [|n]; simpl; auto.
  now rewrite N.eqb_refl, IH.
Qed.

Lemma isPrefix_head_neq c d p s : c <> d -> isPrefix (c :: p) (d :: s) = false.
Proof.
  intros Hne; simpl.
  destruct (N.eqb_spec c d); [contradiction | reflexivity].
Qed.

Lemma skipn_cons_nth s i c :
  nth_error s i = Some c -> skipn i s = c :: skipn (S i) s.
Proof.
  revert i; induction s as [|d s IH]; intros [|i] H; simpl in *;
    try discriminate.
  - now inversion H.
  - now apply IH.
Qed.

Lemma substring_cons s i j c :
  nth_error s i = Some c -> i < j ->
  substring s i j = c :: substring s (S i) j.
Proof.
  intros Hc Hij; unfold substring.
  rewrite (skipn_cons_nth _ _ Hc).
  replace (j - i) with (S (j - S i)) by lia.
  reflexivity.
Qed.

Lemma substring_length s i j :
  j <= length s -> length (substring s i j) = j - i.
Proof.
  intros Hj; unfold substring.
  rewrite length_firstn, length_skipn; lia.
Qed.

Lemma isPrefix_substring s i j : isPrefix (substring s i j) (skipn i s) = true.
Proof. apply isPrefix_firstn. Qed.

Lemma indexOf_here s sub i :
  i <= length s -> isPrefix sub (skipn i s) = true ->
  indexOf s sub i = Z.of_nat i.
Proof.
  intros Hi Hp; unfold indexOf.
  rewrite Nat.min_l by exact Hi.
  destruct (skipn i s); simpl; simpl in Hp; now rewrite Hp.
Qed.

Lemma indexOf_next s sub i c :
  nth_error s i = Some c ->
  isPrefix sub (skipn i s) = false ->
  isPrefix sub (skipn (S i) s) = true ->
  indexOf s sub i = Z.of_nat (S i).
Proof.
  intros Hc Hn Hp; unfold indexOf.
  assert (Hi : i < length s) by (apply nth_error_Some; congruence).
  rewrite Nat.min_l by lia.
  rewrite (skipn_cons_nth _ _ Hc) in *.
  cbn [findFrom]; rewrite Hn.
  destruct (skipn (S i) s); simpl; simpl in Hp; now rewrite Hp.
Qed.

Lemma slice_drop_last s : slice s 0 (-1) = removelast s.
Proof.
  unfold slice, relIndex; simpl.
  rewrite removelast_firstn_len.
  f_equal; lia.
Qed.

Lemma findFrom_single c s pos :
  (match findFrom [c] s pos with Some _ => true | None => false end)
  = existsb (N.eqb c) s.
Proof.
  revert pos; induction s as [|d s IH]; intros pos; simpl; [reflexivity|].
  destruct (N.eqb c d); simpl; [reflexivity | apply IH].
Qed.

Lemma includes_single c s : includes s [c] = existsb (N.eqb c) s.
Proof.
  unfold includes, indexOf; simpl.
  rewrite <- (findFrom_single c s 0).
  destruct (findFrom [c] s 0) as [p|]; [|reflexivity].
  destruct (Z.eqb_spec (Z.of_nat p) (-1)); [lia | reflexivity].
Qed.

Lemma lastChar_snoc s c : lastChar (s ++ [c]) = Some c.
Proof. unfold lastChar; now rewrite rev_app_distr. Qed.

Lemma lastChar_nth s c :
  lastChar s = Some c <-> (0 < length s /\ nth_error s (length s - 1) = Some c).
Proof.
  induction s as [|d s _] using rev_ind.
  - unfold lastChar; simpl; split; [discriminate | intros [H _]; lia].
  - rewrite lastChar_snoc, length_app; simpl.
    replace (length s + 1 - 1) with (length s) by lia.
    rewrite nth_error_app2, Nat.sub_diag by lia; simpl.
    split; [intros H; split; [lia | exact H] | tauto].
Qed.

End StringFacts.

(* ================================================================== *)
(** * Facts about the matcher *)
(* ================================================================== *)

Section CaptureFacts.

Lemma capture_dropCaptures n gs caps :
  ~ In n gs -> capture n (dropCaptures gs caps) = capture n caps.
Proof.
  intros Hn; induction caps as [|[k v] caps IH]; simpl; [reflexivity|].
  destruct (existsb (Nat.eqb k) gs) eqn:E; simpl.
  - destruct (Nat.eqb_spec k n) as [->|_]; [|exact IH].
    apply existsb_exists in E; destruct E as [g [Hg Hk]].
    apply Nat.eqb_eq in Hk; subst g; contradiction.
  - now rewrite IH.
Qed.

Lemma capture_setCapture_same n v x :
  capture n (captures (setCapture n v x)) = Some v.
Proof. simpl; now rewrite Nat.eqb_refl. Qed.

Lemma capture_setCapture_other k n v x :
  k <> n -> capture k (captures (setCapture n v x)) = capture k (captures x).
Proof.
  intros Hk; simpl.
  destruct (Nat.eqb_spec n k); [congruence|].
  apply capture_dropCaptures; simpl; intuition congruence.
Qed.

End CaptureFacts.

Section MatcherFacts.

Variable fl : Flags.
Variable input : jsstring.

Local Abbreviation runs := (runs fl input).
Local Abbreviation Matches := (Matches fl input).
Local Abbreviation iter r := (fun x' => runs r (clearGroups (groups r) x')).

Lemma star_sound r fuel :
  (forall x y, In y (runs r x) -> Matches r x y) ->
  forall x z, In z (star (iter r) fuel x) -> Matches (Star r) x z.
Proof.
  intros IHr; induction fuel as [|fuel IH]; intros x z; simpl.
  - intros [<-|[]]; constructor.
  - rewrite in_app_iff, in_flat_map; intros [[y [Hy Hz]]|[<-|[]]];
      [|constructor].
    destruct (Nat.eqb_spec (endIndex y) (endIndex x)); [destruct Hz|].
    eapply MStarStep; eauto.
Qed.

(** Every run of [runs] is a match of the relation. *)
Lemma runs_sound r : forall x y, In y (runs r x) -> Matches r x y.
Proof.
  induction r as [| |cs|r1 IH1 r2 IH2|r1 IH1 r2 IH2|r IH|r IH|r IH|n r IH];
    intros x y; simpl.
  - destruct (atBol fl input (endIndex x)) eqn:E; [|intros []].
    intros [<-|[]]; now constructor.
  - destruct (atEol fl input (endIndex x)) eqn:E; [|intros []].
    intros [<-|[]]; now constructor.
  - destruct (nth_error input (endIndex x)) as [c|] eqn:E; [|intros []].
    destruct (classMatches fl cs c) eqn:M; [|intros []].
    intros [<-|[]]; econstructor; eauto.
  - rewrite in_flat_map; intros [m [Hm Hy]]; econstructor; eauto.
  - rewrite in_app_iff; intros [H|H]; [apply MAltL | apply MAltR]; auto.
  - rewrite in_app_iff, filter_In; intros [[Hy Hne]|[<-|[]]];
      [|constructor].
    apply MQuestTake; auto.
    destruct (Nat.eqb_spec (endIndex y) (endIndex x)); [discriminate|auto].
  - apply star_sound; exact IH.
  - rewrite in_flat_map; intros [m [Hm Hy]].
    eapply MPlus; [apply IH; exact Hm|].
    eapply star_sound; eauto.
  - rewrite in_map_iff; intros [m [<- Hm]].
    constructor; auto.
Qed.

(** A match only moves forward, and never past the end of the input. *)
Lemma matches_range r x y :
  Matches r x y ->
  endIndex x <= endIndex y <= Nat.max (endIndex x) (length input).
Proof.
  induction 1; simpl in *; try lia.
  assert (endIndex x < length input) by (apply nth_error_Some; congruence).
  lia.
Qed.

Lemma matches_le r x y : Matches r x y -> endIndex x <= endIndex y.
Proof. intros H; apply matches_range in H; lia. Qed.

Lemma matches_bound r x y :
  Matches r x y -> endIndex x <= length input -> endIndex y <= length input.
Proof. intros H; apply matches_range in H; lia. Qed.

(** A term leaves the captures of the parentheses outside it alone. *)
Lemma matches_capture_other n r x y :
  Matches r x y -> ~ In n (groups r) ->
  capture n (captures y) = capture n (captures x).
Proof.
  induction 1; intros Hn; simpl in *; auto;
    try (rewrite in_app_iff in Hn).
  - rewrite IHMatches2, IHMatches1; tauto.
  - tauto.
  - tauto.
  - rewrite IHMatches by auto; simpl. now apply capture_dropCaptures.
  - rewrite IHMatches2, IHMatches1 by auto; simpl.
    now apply capture_dropCaptures.
  - rewrite IHMatches2, IHMatches1 by auto; simpl.
    now apply capture_dropCaptures.
  - destruct (Nat.eqb_spec n0 n); [tauto|].
    rewrite capture_dropCaptures by (simpl; intuition congruence).
    apply IHMatches; tauto.
Qed.

(** Every character a term consumes is accepted by one of its classes. *)
Lemma matches_chars (Q : CodeUnit -> Prop) r x y :
  Matches r x y ->
  (forall cs c, In cs (classes r) -> classMatches fl cs c = true -> Q c) ->
  forall k, endIndex x <= k < endIndex y ->
            exists c, nth_error input k = Some c /\ Q c.
Proof.
  induction 1; intros HQ k Hk; simpl in *; try lia;
    try (setoid_rewrite in_app_iff in HQ);
    repeat match goal with
      | IH : (forall cs c, In cs _ -> _ -> Q c) -> _ |- _ =>
          specialize (IH ltac:(intros; eapply HQ; eauto))
      end;
    try (destruct (Nat.lt_ge_cases k (endIndex y));
         [apply IHMatches1 | apply IHMatches2]; lia);
    try (apply IHMatches; lia).
  assert (k = endIndex x) by lia; subst k.
  exists c; split; [assumption|]. eapply HQ; eauto.
Qed.

Lemma flat_map_ext_In {A B : Type} (f g : A -> list B) l :
  (forall a, In a l -> f a = g a) -> flat_map f l = flat_map g l.
Proof.
  induction l as [|a l IH]; intros H; simpl; [reflexivity|].
  rewrite H, IH; auto using in_eq, in_cons.
Qed.

Lemma flat_map_nil {A B : Type} (l : list A) :
  flat_map (fun _ => @nil B) l = [].
Proof. induction l; simpl; auto. Qed.

Lemma iter_range r x y :
  In y (runs r (clearGroups (groups r) x)) ->
  endIndex x <= endIndex y <= Nat.max (endIndex x) (length input).
Proof. intros H; apply runs_sound, matches_range in H; exact H. Qed.

(** The bound on the iterations of [r*] is never reached: more fuel gives
    the same runs. *)
Lemma star_fuel_S r fuel :
  forall x, length input - endIndex x <= fuel ->
  star (iter r) (S fuel) x = star (iter r) fuel x.
Proof.
  induction fuel as [|fuel IH]; intros x Hx.
  - cbn [star]. rewrite (flat_map_ext_In _ (fun _ => [])).
    + now rewrite flat_map_nil.
    + intros y Hy; apply iter_range in Hy.
      destruct (Nat.eqb_spec (endIndex y) (endIndex x)); [reflexivity | lia].
  - change (star (iter r) (S (S fuel)) x)
      with (flat_map (fun y => if endIndex y =? endIndex x then []
                               else star (iter r) (S fuel) y)
                     (runs r (clearGroups (groups r) x)) ++ [x]).
    change (star (iter r) (S fuel) x)
      with (flat_map (fun y => if endIndex y =? endIndex x then []
                               else star (iter r) fuel y)
                     (runs r (clearGroups (groups r) x)) ++ [x]).
    f_equal; apply flat_map_ext_In; intros y Hy; apply iter_range in Hy.
    destruct (Nat.eqb_spec (endIndex y) (endIndex x)); [reflexivity|].
    apply IH; lia.
Qed.

Lemma star_fuel r fuel :
  forall x, length input - endIndex x <= fuel ->
  star (iter r) fuel x = star (iter r) (length input - endIndex x) x.
Proof.
  induction fuel as [|fuel IH]; intros x Hx.
  - now replace (length input - endIndex x) with 0 by lia.
  - destruct (Nat.eq_dec (length input - endIndex x) (S fuel)) as [->|Hne];
      [reflexivity|].
    rewrite star_fuel_S by lia. apply IH; lia.
Qed.

(** [r*] tries one more iteration first, rejects it when it consumed
    nothing, and falls back on stopping: the equation of the standard's
    repeat matcher. *)
Lemma runs_Star_unfold r x :
  runs (Star r) x
  = flat_map (fun y => if endIndex y =? endIndex x then []
                       else runs (Star r) y)
             (runs r (clearGroups (groups r) x))
    ++ [x].
Proof.
  cbn [RegExp.runs].
  rewrite <- (star_fuel_S r (fuel := length input - endIndex x)) by lia.
  cbn [star]. f_equal; apply flat_map_ext_In; intros y Hy.
  apply iter_range in Hy.
  destruct (Nat.eqb_spec (endIndex y) (endIndex x)); [reflexivity|].
  apply star_fuel; lia.
Qed.

End MatcherFacts.

(* ================================================================== *)
(** * Facts about the character classes *)
(* ================================================================== *)

Section ClassFacts.

Ltac bprop :=
  repeat match goal with
    | H : (_ || _) = true |- _ => apply orb_true_iff in H; destruct H
    | H : (_ && _) = true |- _ => apply andb_true_iff in H; destruct H
    | H : (_ =? _)%N = true |- _ => apply N.eqb_eq in H
    | H : (_ =? _)%N = false |- _ => apply N.eqb_neq in H
    | H : (_ <=? _)%N = true |- _ => apply N.leb_le in H
    | H : (_ <=? _)%N = false |- _ => apply N.leb_gt in H
    end.

Lemma isSpace_range c :
  isSpace c = true -> (c <= 0x20 \/ 0xA0 <= c)%N.
Proof.
  unfold isSpace, isWhiteSpace, isLineTerminator; intros H; bprop; lia.
Qed.

Lemma isLineTerminator_isSpace c :
  isLineTerminator c = true -> isSpace c = true.
Proof. unfold isSpace; intros ->; apply orb_true_r. Qed.

Lemma visible_not_space c : isVisibleAscii c = true -> isSpace c = false.
Proof.
  unfold isVisibleAscii; intros H; bprop.
  destruct (isSpace c) eqn:E; [|reflexivity].
  apply isSpace_range in E; lia.
Qed.

Lemma letter_visible c : isAsciiLetter c = true -> isVisibleAscii c = true.
Proof.
  unfold isAsciiLetter, isVisibleAscii; intros H; bprop;
    apply andb_true_iff; split; apply N.leb_le; lia.
Qed.

Lemma toUpper_cases c :
  toUpper c = c \/ ((0x61 <= c <= 0x7A)%N /\ toUpper c = (c - 32)%N).
Proof.
  unfold toUpper.
  destruct ((0x61 <=? c) && (c <=? 0x7A))%N eqn:E; [right | now left].
  bprop; auto.
Qed.

Lemma toLower_cases c :
  toLower c = c \/ ((0x41 <= c <= 0x5A)%N /\ toLower c = (c + 32)%N).
Proof.
  unfold toLower.
  destruct ((0x41 <=? c) && (c <=? 0x5A))%N eqn:E; [right | now left].
  bprop; auto.
Qed.

Lemma isSpace_toUpper c : isSpace (toUpper c) = isSpace c.
Proof.
  destruct (toUpper_cases c) as [->|[Hc ->]]; [reflexivity|].
  rewrite !visible_not_space; auto;
    unfold isVisibleAscii; apply andb_true_iff; split; apply N.leb_le; lia.
Qed.

Lemma isSpace_toLower c : isSpace (toLower c) = isSpace c.
Proof.
  destruct (toLower_cases c) as [->|[Hc ->]]; [reflexivity|].
  rewrite !visible_not_space; auto;
    unfold isVisibleAscii; apply andb_true_iff; split; apply N.leb_le; lia.
Qed.

Lemma toUpper_variants a c :
  toUpper a = toUpper c <-> a = c \/ a = toUpper c \/ a = toLower c.
Proof.
  unfold toUpper, toLower.
  destruct ((0x61 <=? a) && (a <=? 0x7A))%N eqn:Ea;
    destruct ((0x61 <=? c) && (c <=? 0x7A))%N eqn:Ec;
    destruct ((0x41 <=? c) && (c <=? 0x5A))%N eqn:Ec';
    apply andb_true_iff in Ea || apply andb_false_iff in Ea;
    apply andb_true_iff in Ec || apply andb_false_iff in Ec;
    apply andb_true_iff in Ec' || apply andb_false_iff in Ec';
    rewrite ?N.leb_le, ?N.leb_gt in *; lia.
Qed.

(** [classMatches] is the rule of the standard: some member of the class
    has the canonical form of the character. *)
Lemma classMatches_canonical fl cs c :
  classMatches fl cs c = true <->
  exists a, inClass cs a = true /\
            canonicalize (ignoreCase fl) a = canonicalize (ignoreCase fl) c.
Proof.
  unfold classMatches, canonicalize; destruct (ignoreCase fl).
  - rewrite !orb_true_iff; split.
    + intros [[H|H]|H]; eexists; (split; [exact H|]);
        apply toUpper_variants; auto.
    + intros [a [Ha Hc]]; apply toUpper_variants in Hc.
      destruct Hc as [->|[->| ->]]; auto.
  - split; [intros H; now exists c | now intros [a [Ha ->]]].
Qed.

(** Under the [i] flag a character matches a class when it, or one of its
    case variants, is a member. *)
Lemma classMatches_ci cs c :
  classMatches flagsUri cs c = true ->
  exists a c', In a cs /\ inAtom a c' = true /\
               (c' = c \/ c' = toUpper c \/ c' = toLower c).
Proof.
  unfold classMatches, inClass; simpl; intros H.
  apply orb_true_iff in H; destruct H as [H|H];
    [apply orb_true_iff in H; destruct H as [H|H]|];
    apply existsb_exists in H; destruct H as [a [Ha Hc]];
    exists a; eexists; (split; [exact Ha | split; [exact Hc | auto]]).
Qed.

Lemma lower_class_letter cs c :
  forallb lowerAtom cs = true ->
  classMatches flagsUri cs c = true -> isAsciiLetter c = true.
Proof.
  intros Hcs H; apply classMatches_ci in H.
  destruct H as [a [c' [Ha [Hin Hc']]]].
  rewrite forallb_forall in Hcs; specialize (Hcs a Ha).
  assert (Hl : (0x61 <= c' <= 0x7A)%N).
  { destruct a; simpl in *; try discriminate; bprop; lia. }
  unfold isAsciiLetter.
  destruct Hc' as [->|[->| ->]].
  - apply orb_true_iff; right; apply andb_true_iff; split; apply N.leb_le; lia.
  - destruct (toUpper_cases c) as [E|[Hc E]]; rewrite E in Hl.
    + apply orb_true_iff; right; apply andb_true_iff; split;
        apply N.leb_le; lia.
    + apply orb_true_iff; right; apply andb_true_iff; split;
        apply N.leb_le; lia.
  - destruct (toLower_cases c) as [E|[Hc E]]; rewrite E in Hl.
    + apply orb_true_iff; right; apply andb_true_iff; split;
        apply N.leb_le; lia.
    + apply orb_true_iff; left; apply andb_true_iff; split;
        apply N.leb_le; lia.
Qed.

Lemma visible_class_not_space cs c :
  forallb visibleAtom cs = true ->
  classMatches flagsUri cs c = true -> isSpace c = false.
Proof.
  intros Hcs H; apply classMatches_ci in H.
  destruct H as [a [c' [Ha [Hin Hc']]]].
  rewrite forallb_forall in Hcs; specialize (Hcs a Ha).
  assert (Hs : isSpace c' = false).
  { destruct a; simpl in *; try discriminate.
    - apply N.eqb_eq in Hin; subst; now apply visible_not_space.
    - apply visible_not_space; unfold isVisibleAscii.
      bprop; apply andb_true_iff; split; apply N.leb_le; lia.
    - now apply negb_true_iff in Hin. }
  destruct Hc' as [->|[->| ->]]; auto.
  - now rewrite isSpace_toUpper in Hs.
  - now rewrite isSpace_toLower in Hs.
Qed.

Lemma space_class c :
  classMatches flagsUri [CSpace] c = true -> isSpace c = true.
Proof.
  intros H; apply classMatches_ci in H.
  destruct H as [a [c' [[<-|[]] [Hin Hc']]]]; simpl in Hin.
  destruct Hc' as [->|[->| ->]]; auto.
  - now rewrite isSpace_toUpper in Hin.
  - now rewrite isSpace_toLower in Hin.
Qed.

Lemma paren_class c :
  classMatches flagsUri [CChar (cu "(")] c = true -> c = cu "(".
Proof.
  intros H; apply classMatches_ci in H.
  destruct H as [a [c' [[<-|[]] [Hin Hc']]]]; simpl in Hin.
  apply N.eqb_eq in Hin. change (cu "(") with 40%N in *.
  destruct Hc' as [->|[->| ->]]; auto.
  - destruct (toUpper_cases c) as [E|[Hc E]]; rewrite E in Hin; lia.
  - destruct (toLower_cases c) as [E|[Hc E]]; rewrite E in Hin; lia.
Qed.

End ClassFacts.

(* ================================================================== *)
(** * Facts about the matches of the URI expression *)
(* ================================================================== *)

Ltac inv H := inversion H; subst; clear H.

Section UriFacts.

Variable str : jsstring.

Local Abbreviation Matches := (Matches flagsUri str).
Local Abbreviation Preceded := (Preceded str).
Local Abbreviation UriMatch := (UriMatch str).

Lemma scheme_facts x y :
  Matches reScheme x y ->
  endIndex x + 3 <= endIndex y /\
  exists c, nth_error str (endIndex x) = Some c /\ isAsciiLetter c = true.
Proof.
  unfold reScheme; cbn [seqs]; intros H.
  inv H. 
  match goal with H : Matches (Seq _ _) _ _ |- _ => inv H end.
  match goal with H : Matches (chr _) _ _ |- _ => inv H end.
  match goal with H : Matches (Seq _ _) _ _ |- _ => inv H end.
  match goal with H : Matches (chr _) _ _ |- _ => inv H end.
  match goal with H : Matches (Seq _ _) _ _ |- _ => inv H end.
  match goal with H : Matches (chr _) _ _ |- _ => inv H end.
  match goal with H : Matches (Seq _ _) _ _ |- _ => apply matches_le in H end.
  simpl in *. split; [lia|].
  eexists; split; [eassumption|].
  eapply lower_class_letter; [|eassumption]. reflexivity.
Qed.

Lemma bare_facts x y :
  Matches reBare x y ->
  endIndex x + 3 <= endIndex y /\
  exists c, nth_error str (endIndex x) = Some c /\ isAsciiLetter c = true.
Proof.
  unfold reBare, reDomain; cbn [seqs]; intros H.
  inv H.
  match goal with H : Matches (Seq (Group _ _) _) _ _ |- _ => inv H end.
  match goal with H : Matches (Star _) _ _ |- _ => apply matches_le in H end.
  match goal with H : Matches (Group _ _) _ _ |- _ => inv H end.
  match goal with H : Matches (Seq _ _) _ _ |- _ => inv H end.
  match goal with H : Matches (Class _) _ _ |- _ => inv H end.
  match goal with H : Matches (Seq _ _) _ _ |- _ => inv H end.
  match goal with H : Matches (Star _) _ _ |- _ => apply matches_le in H end.
  match goal with H : Matches (Plus _) _ _ |- _ => inv H end.
  match goal with H : Matches (Star _) _ _ |- _ => apply matches_le in H end.
  match goal with H : Matches (Group _ _) _ _ |- _ => inv H end.
  match goal with H : Matches (Seq _ _) _ _ |- _ => inv H end.
  match goal with H : Matches (chr _) _ _ |- _ => inv H end.
  match goal with H : Matches (Plus _) _ _ |- _ => inv H end.
  match goal with H : Matches (Star _) _ _ |- _ => apply matches_le in H end.
  match goal with H : Matches (Class _) _ _ |- _ => inv H end.
  simpl in *. split; [lia|].
  eexists; split; [eassumption|].
  eapply lower_class_letter; [|eassumption]. reflexivity.
Qed.

(** The text of parenthesis 2 holds no white space. *)
Lemma link_chars x y :
  Matches (Alt reScheme reBare) x y ->
  forall k, endIndex x <= k < endIndex y ->
            exists c, nth_error str k = Some c /\ isSpace c = false.
Proof.
  intros H; apply (matches_chars (fun c => isSpace c = false) H).
  intros cs c Hcs; apply visible_class_not_space.
  assert (Hall : forallb (forallb visibleAtom)
                         (classes (Alt reScheme reBare)) = true)
    by reflexivity.
  rewrite forallb_forall in Hall; auto.
Qed.

Lemma link_facts x y :
  Matches (Alt reScheme reBare) x y ->
  endIndex x + 3 <= endIndex y /\
  exists c, nth_error str (endIndex x) = Some c /\ isAsciiLetter c = true.
Proof.
  intros H; inv H; [now apply scheme_facts | now apply bare_facts].
Qed.

Lemma prefix_facts i x :
  Matches rePrefix (mkState i []) x ->
  capture 1 (captures x) = Some (i, endIndex x) /\ Preceded i (endIndex x).
Proof.
  unfold rePrefix; intros H; inv H.
  split; [apply capture_setCapture_same|].
  match goal with H : Matches (Alt _ _) _ _ |- _ => inv H end.
  - match goal with H : Matches Bol _ _ |- _ => inv H end.
    left; auto.
  - match goal with H : Matches (Alt _ _) _ _ |- _ => inv H end.
    + match goal with H : Matches (Class _) _ _ |- _ => inv H end.
      right; simpl in *; split; [reflexivity|].
      eexists; split; [eassumption|]. left; now apply space_class.
    + match goal with H : Matches (chr _) _ _ |- _ => inv H end.
      right; simpl in *; split; [reflexivity|].
      eexists; split; [eassumption|]. right; now apply paren_class.
Qed.

Lemma uri_match i y :
  i <= length str ->
  Matches reUri (mkState i []) y -> exists s, UriMatch i y s.
Proof.
  unfold reUri; intros Hi H; inv H.
  match goal with H : Matches rePrefix _ _ |- _ =>
    pose proof (matches_bound H Hi) as Hb;
    apply prefix_facts in H; destruct H as [Hc1 Hp] end.
  match goal with H : Matches (Group 2 _) _ _ |- _ => inv H end.
  match goal with H : Matches (Alt _ _) ?x ?y |- _ =>
    exists (endIndex x);
    pose proof (matches_bound H Hb);
    pose proof (link_chars H);
    pose proof (matches_capture_other 1 H) as Hk;
    apply link_facts in H; destruct H as [Hlen Hfirst] end.
  split; simpl; auto.
  - destruct (Nat.eqb_spec 2 1); [discriminate|].
    rewrite capture_dropCaptures by (simpl; intuition congruence).
    rewrite Hk; [exact Hc1|].
    simpl; intuition discriminate.
Qed.

End UriFacts.

(* ================================================================== *)
(** * Facts about [exec] and [test] *)
(* ================================================================== *)

Section ExecFacts.

Variable fl : Flags.
Variable input : jsstring.

Lemma firstMatch_Some r starts m :
  firstMatch fl input r starts = Some m ->
  In (index m) starts /\ matchAt fl input r (index m) = Some (final m).
Proof.
  induction starts as [|i starts IH]; simpl; [discriminate|].
  destruct (matchAt fl input r i) as [y|] eqn:E.
  - intros [= <-]; simpl; auto.
  - intros H; apply IH in H; tauto.
Qed.

Lemma firstMatch_None r starts :
  firstMatch fl input r starts = None ->
  forall i, In i starts -> matchAt fl input r i = None.
Proof.
  induction starts as [|j starts IH]; simpl; [tauto|].
  destruct (matchAt fl input r j) as [y|] eqn:E; [discriminate|].
  intros H i [<-|Hi]; auto.
Qed.

Lemma matchAt_Some r i y :
  matchAt fl input r i = Some y -> Matches fl input r (mkState i []) y.
Proof.
  unfold matchAt; intros H; apply runs_sound.
  destruct (runs fl input r (mkState i [])); [discriminate|].
  injection H as ->; apply in_eq.
Qed.

(** A successful [exec] starts at or after [lastIndex], inside the input. *)
Lemma exec_Some r lastIndex m :
  exec fl input r lastIndex = Some m ->
  lastIndex <= index m <= length input /\
  Matches fl input r (mkState (index m) []) (final m).
Proof.
  unfold exec; intros H; apply firstMatch_Some in H; destruct H as [Hi Hm].
  apply in_seq in Hi; split; [lia | now apply matchAt_Some].
Qed.

Lemma exec_past_end r lastIndex :
  length input < lastIndex -> exec fl input r lastIndex = None.
Proof.
  intros H; unfold exec.
  now replace (S (length input) - lastIndex) with 0 by lia.
Qed.

End ExecFacts.

Section TestFacts.

Variable uri : jsstring.
Variable cs : CharClass.

Lemma matchAt_class_end i :
  matchAt noFlags uri (Seq (Class cs) Eol) i =
  match nth_error uri i with
  | Some c => if inClass cs c && (S i =? length uri)
              then Some (mkState (S i) []) else None
  | None => None
  end.
Proof.
  unfold matchAt; simpl.
  destruct (nth_error uri i) as [c|]; [|reflexivity].
  unfold classMatches; simpl.
  destruct (inClass cs c); [|reflexivity]; simpl.
  unfold atEol; simpl. rewrite orb_false_r.
  now destruct (length uri) as [|n]; [|destruct (i =? n)].
Qed.

(** An expression [[...]$] without flags tests the last character. *)
Lemma test_class_end :
  test noFlags uri (Seq (Class cs) Eol) =
  match lastChar uri with
  | Some c => inClass cs c
  | None => false
  end.
Proof.
  unfold test.
  destruct (exec noFlags uri (Seq (Class cs) Eol) 0) as [m|] eqn:E.
  - apply firstMatch_Some in E; destruct E as [_ E].
    rewrite matchAt_class_end in E.
    destruct (nth_error uri (index m)) as [c|] eqn:Hc; [|discriminate].
    destruct (inClass cs c) eqn:Hin; [|discriminate].
    destruct (Nat.eqb_spec (S (index m)) (length uri)) as [Hl|];
      [|discriminate].
    assert (Hlast : lastChar uri = Some c).
    { apply lastChar_nth; split; [lia|].
      now replace (length uri - 1) with (index m) by lia. }
    now rewrite Hlast.
  - destruct (lastChar uri) as [c|] eqn:Hlast; [|reflexivity].
    apply lastChar_nth in Hlast; destruct Hlast as [Hpos Hc].
    assert (Hi : In (length uri - 1) (seq 0 (S (length uri) - 0)))
      by (apply in_seq; lia).
    apply (firstMatch_None _ _ _ _ E) in Hi.
    rewrite matchAt_class_end, Hc in Hi.
    replace (S (length uri - 1) =? length uri) with true in Hi
      by (symmetry; apply Nat.eqb_eq; lia).
    now destruct (inClass cs c).
Qed.

End TestFacts.

Section TrimFacts.

Lemma inClass_punct c :
  inClass [CChar (cu "."); CChar (cu ","); CChar (cu ";"); CChar (cu "!");
           CChar (cu "?")] c = isTrailingPunct c.
Proof.
  unfold inClass, isTrailingPunct; simpl.
  now rewrite orb_false_r, !orb_assoc.
Qed.

(** The first [if] of the loop body is step 1 of the specification. *)
Lemma stripPunct_spec st : stripPunct st = spec_trimPunct st.
Proof.
  destruct st as [uri to]; unfold stripPunct, spec_trimPunct, rePunctEnd.
  rewrite test_class_end, slice_drop_last; simpl fst; simpl snd.
  destruct (lastChar uri) as [c|]; [|reflexivity].
  now rewrite inClass_punct.
Qed.

(** The second [if] of the loop body is step 2 of the specification. *)
Lemma stripParen_spec st : stripParen st = spec_trimParen st.
Proof.
  destruct st as [uri to]; unfold stripParen, spec_trimParen, reParenEnd.
  rewrite test_class_end, slice_drop_last; simpl fst; simpl snd.
  change (lit "(") with [cu "("]. rewrite includes_single.
  destruct (lastChar uri) as [c|]; [|reflexivity].
  unfold inClass; simpl. now rewrite orb_false_r.
Qed.

Lemma spec_trimPunct_to st :
  (snd st - 1 <= snd (spec_trimPunct st) <= snd st)%Z.
Proof.
  unfold spec_trimPunct.
  destruct (lastChar (fst st)) as [c|]; [|lia].
  destruct (isTrailingPunct c); simpl; lia.
Qed.

Lemma spec_trimParen_to st :
  (snd st - 1 <= snd (spec_trimParen st) <= snd st)%Z.
Proof.
  unfold spec_trimParen.
  destruct (lastChar (fst st)) as [c|]; [|lia].
  destruct ((c =? cu ")")%N && _); simpl; lia.
Qed.

(** At most two characters are trimmed. *)
Lemma spec_trim_to st : (snd st - 2 <= snd (spec_trim st) <= snd st)%Z.
Proof.
  unfold spec_trim.
  pose proof (spec_trimPunct_to st).
  pose proof (spec_trimParen_to (spec_trimPunct st)). lia.
Qed.

End TrimFacts.

(* ================================================================== *)
(** * Facts about the loop of [iterateUris] *)
(* ================================================================== *)

Section ScannerFacts.

Variable isValidDomain : jsstring -> bool.
Variable str : jsstring.

Local Abbreviation Emitted := (Emitted str).
Local Abbreviation Chain := (Chain str).

Lemma Chain_weaken li li' cs : li' <= li -> Chain li cs -> Chain li' cs.
Proof.
  intros Hle H; destruct H as [|li i s e c cs Hi Hem Hc]; [constructor|].
  apply Chain_cons with (i := i) (s := s) (e := e); auto; lia.
Qed.

Lemma letter_not_prefix ch c :
  isAsciiLetter ch = true -> isSpace c = true \/ c = cu "(" -> ch <> c.
Proof.
  intros Hl Hc ->.
  destruct Hc as [Hs| ->].
  - apply letter_visible, visible_not_space in Hl; congruence.
  - discriminate.
Qed.

(** [str.indexOf(match[2], match.index)] is where the link text starts:
    the prefix character, if any, differs from its first letter. *)
Lemma indexOf_link i s e :
  Preceded str i s ->
  (exists ch, nth_error str s = Some ch /\ isAsciiLetter ch = true) ->
  s < e -> e <= length str ->
  indexOf str (substring str s e) i = Z.of_nat s.
Proof.
  intros Hp [ch [Hch Hl]] Hse He.
  destruct Hp as [[-> _]|[-> [c [Hc Hpre]]]].
  - apply indexOf_here; [lia | apply isPrefix_substring].
  - eapply indexOf_next; [exact Hc | | apply isPrefix_substring].
    rewrite (@substring_cons str (S i) e ch Hch Hse),
      (@skipn_cons_nth str i c Hc).
    apply isPrefix_head_neq; eapply letter_not_prefix; eauto.
Qed.

(** One iteration: the match is at least three characters long and ends
    inside the string; the body throws nothing, and either abandons the
    iteration or reaches the callback. *)
Lemma body_facts lastIndex m :
  exec flagsUri str reUri lastIndex = Some m ->
  lastIndex + 3 <= lastIndexOf m <= length str /\
  (body isValidDomain str m = Ok None \/
   exists c s, body isValidDomain str m = Ok (Some c) /\
               Emitted (index m) s (lastIndexOf m) c).
Proof.
  intros H; apply exec_Some in H; destruct H as [Hi Hm].
  apply uri_match in Hm; [|lia]. destruct Hm as [s []].
  unfold lastIndexOf.
  assert (s >= index m)
    by (destruct um_preceded0 as [[-> _]|[-> _]]; lia).
  split; [lia|].
  assert (Hg : group str m 2 = Some (substring str s (endIndex (final m))))
    by (unfold group; now rewrite um_link0).
  unfold body, resolveUri; rewrite Hg.
  set (m2 := substring str s (endIndex (final m))).
  assert (Hemit : forall u0, u0 = m2 \/ u0 = lit "https://" ++ m2 ->
     exists c s,
       (let (uri', to') :=
          stripParen (stripPunct
            (u0, (indexOf str m2 (index m) + Z.of_nat (length m2) + 1)%Z)) in
        Ok (Some (mkCandidate m2 (indexOf str m2 (index m)) to' uri')))
       = Ok (Some c) /\ Emitted (index m) s (endIndex (final m)) c).
  { intros u0 Hu0.
    rewrite stripPunct_spec, stripParen_spec.
    fold (spec_trim
            (u0, (indexOf str m2 (index m) + Z.of_nat (length m2) + 1)%Z)).
    assert (Hfrom : indexOf str m2 (index m) = Z.of_nat s)
      by (apply indexOf_link; auto; lia).
    assert (Hlen : length m2 = endIndex (final m) - s)
      by (apply substring_length; lia).
    rewrite Hfrom, Hlen.
    replace (Z.of_nat s + Z.of_nat (endIndex (final m) - s) + 1)%Z
      with (Z.of_nat (endIndex (final m)) + 1)%Z by lia.
    destruct (spec_trim (u0, (Z.of_nat (endIndex (final m)) + 1)%Z))
      as [uri' to'] eqn:Et.
    eexists; exists s; split; [reflexivity|].
    split; simpl; auto.
    exists u0; split; auto. }
  destruct (negb (startsWith m2 (lit "http"))).
  - destruct (group str m domainGroup) as [domain|]; [|now left].
    destruct (_ || _); [now left|].
    right; apply Hemit; auto.
  - right; apply Hemit; auto.
Qed.

(** The loop ends whatever the bound, provided the bound exceeds the number
    of characters left, and its candidates form a chain. *)
Lemma candidatesFrom_total n :
  forall lastIndex,
    length str - lastIndex <= n -> lastIndex <= length str ->
    exists cs, Chain lastIndex cs /\
      forall fuel, length str < fuel + lastIndex ->
                   candidatesFrom isValidDomain str fuel lastIndex = Ok cs.
Proof.
  induction n as [|n IH]; intros li Hn Hli.
  - (* no room is left for a match *)
    exists []; split; [constructor|].
    intros [|fuel] Hf; [lia|]; simpl.
    destruct (exec flagsUri str reUri li) as [m|] eqn:E; [|reflexivity].
    apply body_facts in E; lia.
  - destruct (exec flagsUri str reUri li) as [m|] eqn:E.
    + pose proof E as Hbody; apply body_facts in Hbody.
      destruct Hbody as [Hlast Hbody].
      destruct (IH (lastIndexOf m)) as [cs [Hchain Hcs]]; [lia | lia |].
      destruct Hbody as [Hb|[c [s [Hb Hem]]]].
      * exists cs; split; [eapply Chain_weaken; [|exact Hchain]; lia|].
        intros [|fuel] Hf; [lia|]; simpl.
        rewrite E, Hb; simpl. rewrite Hcs by lia; reflexivity.
      * exists (c :: cs); split.
        { apply exec_Some in E.
          apply Chain_cons with (i := index m) (s := s) (e := lastIndexOf m);
            auto; lia. }
        intros [|fuel] Hf; [lia|]; simpl.
        rewrite E, Hb; simpl. rewrite Hcs by lia; reflexivity.
    + exists []; split; [constructor|].
      intros [|fuel] Hf; [lia|]; simpl. now rewrite E.
Qed.

Lemma candidates_chain :
  exists cs, candidates isValidDomain str = Ok cs /\ Chain 0 cs.
Proof.
  destruct (@candidatesFrom_total (length str) 0) as [cs [Hc Hf]];
    [lia | lia |].
  exists cs; split; [apply Hf; lia | exact Hc].
Qed.

(** The callback sees the candidates in order: the loop with a callback is
    the loop that records the candidates, followed by the calls. *)
Lemma whileExec_candidates {St : Type} (cb : Z -> Z -> St -> St) fuel :
  forall lastIndex s,
    whileExec isValidDomain str cb fuel lastIndex s =
    cs <- candidatesFrom isValidDomain str fuel lastIndex ;;
    Ok (fold_left (fun s c => cb (cand_from c) (cand_to c) s) cs s).
Proof.
  induction fuel as [|fuel IH]; intros li s; simpl; [reflexivity|].
  destruct (exec flagsUri str reUri li) as [m|]; [|reflexivity].
  destruct (body isValidDomain str m) as [[c|]| |]; simpl; auto;
    rewrite IH;
    now destruct (candidatesFrom isValidDomain str fuel (lastIndexOf m)).
Qed.

Lemma fold_left_log {A B : Type} (f : A -> B) l acc :
  fold_left (fun log a => log ++ [f a]) l acc = acc ++ map f l.
Proof.
  revert acc; induction l as [|a l IH]; intros acc; simpl.
  - now rewrite app_nil_r.
  - now rewrite IH, <- app_assoc.
Qed.

Lemma spans_candidates :
  spans isValidDomain str =
  cs <- candidates isValidDomain str ;;
  Ok (map (fun c => (cand_from c, cand_to c)) cs).
Proof.
  unfold spans, iterateUris, candidates; rewrite whileExec_candidates.
  destruct (candidatesFrom isValidDomain str (S (length str)) 0); simpl; auto.
  now rewrite (fold_left_log (fun c => (cand_from c, cand_to c))).
Qed.

End ScannerFacts.

(* ================================================================== *)
(** * Properties of the emitted spans *)
(* ================================================================== *)

Section ChainFacts.

Variable str : jsstring.

Lemma Preceded_ge i s : Preceded str i s -> i <= s.
Proof. intros [[-> _]|[-> _]]; lia. Qed.

Lemma Chain_In li cs c :
  Chain str li cs -> In c cs ->
  exists i s e, li <= i /\ Emitted str i s e c.
Proof.
  induction 1 as [|li i s e c' cs Hi Hem Hc IH]; intros Hin; [destruct Hin|].
  destruct Hin as [<-|Hin]; [now exists i, s, e|].
  destruct (IH Hin) as [i' [s' [e' [Hle Hem']]]].
  exists i', s', e'; split; [|exact Hem'].
  pose proof (Preceded_ge (em_preceded Hem)). pose proof (em_long Hem). lia.
Qed.

Lemma Emitted_to i s e c :
  Emitted str i s e c ->
  (Z.of_nat e - 1 <= cand_to c <= Z.of_nat e + 1)%Z.
Proof.
  intros [_ _ _ _ _ _ _ [u0 [_ Htrim]]].
  pose proof (spec_trim_to (u0, (Z.of_nat e + 1)%Z)) as Hto.
  rewrite <- Htrim in Hto; simpl in Hto; lia.
Qed.

Lemma Emitted_length i s e c :
  Emitted str i s e c -> length (cand_match c) = e - s.
Proof.
  intros [_ _ Hb _ _ Hm _ _]; rewrite Hm; now apply substring_length.
Qed.

(** A span starts at the link text and ends at most one position after it,
    at least two positions after its start. *)
Lemma Emitted_span i s e c :
  Emitted str i s e c ->
  (0 <= cand_from c /\ cand_from c + 2 <= cand_to c /\
   cand_to c <= Z.of_nat (length str) + 1)%Z.
Proof.
  intros H; pose proof (Emitted_to H) as Hto.
  destruct H as [_ Hl Hb _ _ _ Hf _]; rewrite Hf; lia.
Qed.

Lemma Chain_from_ge li cs c :
  Chain str li cs -> In c cs -> (Z.of_nat li <= cand_from c)%Z.
Proof.
  intros Hc Hin; destruct (Chain_In c Hc Hin) as [i [s [e [Hle Hem]]]].
  pose proof (Preceded_ge (em_preceded Hem)).
  rewrite (em_from Hem); lia.
Qed.

(** After a link text that ends at [e], the next link text starts at
    [e + 1] at the earliest: a character separates the two. *)
Lemma Chain_separated e cs c :
  Chain str e cs -> In c cs ->
  (exists ch, nth_error str (e - 1) = Some ch /\ isSpace ch = false) ->
  0 < e -> (Z.of_nat e + 1 <= cand_from c)%Z.
Proof.
  intros Hc Hin [ch [Hch Hns]] He.
  destruct Hc as [|li i s e' c' cs Hi Hem Hc]; [destruct Hin|].
  destruct Hin as [<-|Hin].
  - rewrite (em_from Hem).
    destruct (em_preceded Hem) as [[-> Hbol]|[-> _]]; [|lia].
    destruct (Nat.eq_dec i li) as [->|]; [|lia].
    destruct li as [|li]; [lia|]. simpl in Hbol, Hch.
    rewrite Nat.sub_0_r in Hch; rewrite Hch in Hbol.
    apply isLineTerminator_isSpace in Hbol; congruence.
  - pose proof (Chain_from_ge c Hc Hin).
    pose proof (Preceded_ge (em_preceded Hem)).
    pose proof (em_long Hem). lia.
Qed.

Lemma Chain_sorted li cs :
  Chain str li cs -> StronglySorted Before (map spanOf cs).
Proof.
  induction 1 as [|li i s e c cs Hi Hem Hc IH]; simpl; constructor; auto.
  apply Forall_forall; intros b Hb.
  apply in_map_iff in Hb; destruct Hb as [c' [<- Hin]].
  assert (Hsep : (Z.of_nat e + 1 <= cand_from c')%Z).
  { apply (Chain_separated c' Hc Hin).
    - apply (em_chars Hem); pose proof (em_long Hem); lia.
    - pose proof (em_long Hem); lia. }
  pose proof (Emitted_to Hem). pose proof (em_long Hem).
  unfold Before, spanOf; simpl. rewrite (em_from Hem). lia.
Qed.

Lemma StronglySorted_nth {A : Type} (R : A -> A -> Prop) l :
  StronglySorted R l ->
  forall i j a b, i < j -> nth_error l i = Some a -> nth_error l j = Some b ->
                  R a b.
Proof.
  induction 1 as [|x l Hs IH Hall]; intros i j a b Hij Ha Hb.
  - destruct i; discriminate.
  - destruct j as [|j]; [lia|]. simpl in Hb.
    destruct i as [|i]; simpl in Ha.
    + injection Ha as <-.
      rewrite Forall_forall in Hall; apply Hall.
      eapply nth_error_In; eauto.
    + apply (IH i j); auto; lia.
Qed.

End ChainFacts.

Section SpanTheorems.

Variable isValidDomain : jsstring -> bool.
Variable str : jsstring.

(** C1 (as amended): the scan of every string ends normally, and every
    span [(from, to)] passed to the callback satisfies
    [0 <= from < to <= length str + 1]; [to] is the end of the link text
    plus one, so it can exceed the length of the string by one. *)
Theorem C1_span_bounds :
  exists l, spans isValidDomain str = Ok l /\
    forall from to, In (from, to) l ->
      (0 <= from < to /\ to <= Z.of_nat (length str) + 1)%Z.
Proof.
  destruct (candidates_chain isValidDomain str) as [cs [Hcs Hchain]].
  exists (map spanOf cs); split.
  - now rewrite spans_candidates, Hcs.
  - intros from to Hin; apply in_map_iff in Hin.
    destruct Hin as [c [[= <- <-] Hc]].
    destruct (Chain_In c Hchain Hc) as [i [s [e [_ Hem]]]].
    apply Emitted_span in Hem; lia.
Qed.

(** C3: the spans passed to the callback are in strictly increasing order
    of [from], and each ends no later than the next one starts, so no two
    ranges [from, to) overlap. *)
Theorem C3_spans_ordered_disjoint :
  exists l, spans isValidDomain str = Ok l /\
    forall i j a b, i < j ->
      nth_error l i = Some a -> nth_error l j = Some b ->
      (fst a < fst b /\ snd a <= fst b)%Z.
Proof.
  destruct (candidates_chain isValidDomain str) as [cs [Hcs Hchain]].
  exists (map spanOf cs); split.
  - now rewrite spans_candidates, Hcs.
  - apply (StronglySorted_nth (R := Before)).
    eapply Chain_sorted; eauto.
Qed.

(** C7: every raw match is at least three characters long and trimming
    takes away at most two positions from [to = from + length + 1], so
    [from < to] holds for every span passed to the callback: no empty span
    is emitted. *)
Theorem C7_no_empty_span :
  exists cs, candidates isValidDomain str = Ok cs /\
    spans isValidDomain str = Ok (map spanOf cs) /\
    forall c, In c cs ->
      3 <= length (cand_match c) /\
      (cand_from c + Z.of_nat (length (cand_match c)) + 1 - 2 <= cand_to c
       <= cand_from c + Z.of_nat (length (cand_match c)) + 1)%Z /\
      (cand_from c < cand_to c)%Z.
Proof.
  destruct (candidates_chain isValidDomain str) as [cs [Hcs Hchain]].
  exists cs; split; [exact Hcs|]; split.
  - now rewrite spans_candidates, Hcs.
  - intros c Hc.
    destruct (Chain_In c Hchain Hc) as [i [s [e [_ Hem]]]].
    pose proof (Emitted_to Hem). pose proof (Emitted_length Hem) as Hl.
    pose proof (em_long Hem). pose proof (em_from Hem) as Hf.
    rewrite Hl, Hf; lia.
Qed.

End SpanTheorems.

Section MoreSpanTheorems.

Lemma Preceded_before str i s :
  Preceded str i s ->
  s = 0 \/ exists ch, nth_error str (s - 1) = Some ch /\
                      (isSpace ch = true \/ ch = cu "(").
Proof.
  intros [[-> Hbol]|[-> [ch [Hch Hpre]]]].
  - destruct i as [|i]; [now left | right]; simpl in *.
    rewrite Nat.sub_0_r.
    destruct (nth_error str i) as [ch|]; [|discriminate].
    exists ch; split; [reflexivity|].
    left; now apply isLineTerminator_isSpace.
  - right; exists ch; simpl; rewrite Nat.sub_0_r; auto.
Qed.

(** C8: the link text of every candidate passed to the callback lies at
    [from] in the input and is preceded there by the start of the string,
    by a white-space character or by an open parenthesis; a link-shaped
    substring glued to other characters, such as the domain of an
    e-mail-like token, is not emitted. *)
Theorem C8_link_preceded :
  (forall isValidDomain str,
     exists cs, candidates isValidDomain str = Ok cs /\
       spans isValidDomain str = Ok (map spanOf cs) /\
       forall c, In c cs ->
         exists s, cand_from c = Z.of_nat s /\
           substring str s (s + length (cand_match c)) = cand_match c /\
           (s = 0 \/ exists ch, nth_error str (s - 1) = Some ch /\
                                (isSpace ch = true \/ ch = cu "("))) /\
  (forall isValidDomain,
     spans isValidDomain (lit "me@example.com") = Ok []).
Proof.
  split.
  - intros isValidDomain str.
    destruct (candidates_chain isValidDomain str) as [cs [Hcs Hchain]].
    exists cs; split; [exact Hcs|]; split.
    + now rewrite spans_candidates, Hcs.
    + intros c Hc.
      destruct (Chain_In c Hchain Hc) as [i [s [e [_ Hem]]]].
      exists s; split; [apply (em_from Hem)|]; split.
      * rewrite (Emitted_length Hem).
        pose proof (em_long Hem).
        replace (s + (e - s)) with e by lia.
        symmetry; apply (em_match Hem).
      * apply (Preceded_before (em_preceded Hem)).
  - intros isValidDomain; vm_compute; reflexivity.
Qed.

(** C4: boundary trimming is the two ordered steps of the specification.
    The two [if] statements of the loop body compute them; every candidate
    passed to the callback carries the resolved link and
    [to = from + length + 1] trimmed that way; [(see http://foo.test)]
    yields the link [http://foo.test] without either parenthesis, and in
    [(http://foo.test/a(b))] no closing parenthesis is stripped. *)
Theorem C4_boundary_trimming :
  (forall st, stripParen (stripPunct st) = spec_trimParen (spec_trimPunct st)) /\
  (forall isValidDomain str,
     exists cs, candidates isValidDomain str = Ok cs /\
       forall c, In c cs ->
         exists uri,
           (uri = cand_match c \/ uri = lit "https://" ++ cand_match c) /\
           (cand_uri c, cand_to c) =
           spec_trimParen (spec_trimPunct
             (uri, (cand_from c + Z.of_nat (length (cand_match c)) + 1)%Z))) /\
  (forall isValidDomain,
     candidates isValidDomain (lit "(see http://foo.test)") =
     Ok [mkCandidate (lit "http://foo.test)") 5 21 (lit "http://foo.test")]) /\
  (forall isValidDomain,
     candidates isValidDomain (lit "(http://foo.test/a(b))") =
     Ok [mkCandidate (lit "http://foo.test/a(b))") 1 23
                     (lit "http://foo.test/a(b))")]).
Proof.
  split; [|split; [|split]].
  - intros st; now rewrite stripPunct_spec, stripParen_spec.
  - intros isValidDomain str.
    destruct (candidates_chain isValidDomain str) as [cs [Hcs Hchain]].
    exists cs; split; [exact Hcs|].
    intros c Hc.
    destruct (Chain_In c Hchain Hc) as [i [s [e [_ Hem]]]].
    destruct (em_trim Hem) as [u0 [Hu0 Htrim]].
    exists u0; split; [exact Hu0|].
    rewrite (Emitted_length Hem), (em_from Hem).
    pose proof (em_long Hem).
    replace (Z.of_nat s + Z.of_nat (e - s) + 1)%Z with (Z.of_nat e + 1)%Z
      by lia.
    exact Htrim.
  - intros isValidDomain; vm_compute; reflexivity.
  - intros isValidDomain; vm_compute; reflexivity.
Qed.

Lemma exec_uri str lastIndex m :
  exec flagsUri str reUri lastIndex = Some m ->
  lastIndex <= index m /\ exists s, UriMatch str (index m) (final m) s.
Proof.
  intros H; apply exec_Some in H; destruct H as [Hi Hm].
  split; [lia|]. apply uri_match; [lia | exact Hm].
Qed.

(** C10: the scan ends on every string.  Every match that [exec] returns
    holds a link text of at least three characters, so [lastIndex] grows
    strictly at every iteration, whether the body reaches the callback or
    abandons the iteration; the loop therefore ends within any bound above
    the length of the string, with the result of [iterateUris]. *)
Theorem C10_scan_terminates :
  forall isValidDomain str,
    (forall lastIndex m,
       exec flagsUri str reUri lastIndex = Some m ->
       lastIndex <= index m /\ index m < lastIndexOf m /\
       lastIndexOf m <= length str /\
       exists link, group str m 2 = Some link /\ 3 <= length link /\
                    index m + length link <= lastIndexOf m) /\
    (forall (St : Type) (cb : Z -> Z -> St -> St) (s : St) fuel,
       length str < fuel ->
       exists s', whileExec isValidDomain str cb fuel 0 s = Ok s' /\
                  iterateUris isValidDomain str cb s = Ok s').
Proof.
  intros isValidDomain str; split.
  - intros li m H; apply exec_uri in H; destruct H as [Hli [s Hm]].
    pose proof (Preceded_ge (um_preceded Hm)).
    pose proof (um_long Hm). pose proof (um_bound Hm).
    unfold lastIndexOf; repeat split; try lia.
    exists (substring str s (endIndex (final m))); split.
    + unfold group; now rewrite (um_link Hm).
    + rewrite substring_length by lia; lia.
  - intros St cb s fuel Hfuel.
    destruct (@candidatesFrom_total isValidDomain str (length str) 0)
      as [cs [_ Hcs]]; [lia | lia |].
    exists (fold_left (fun s c => cb (cand_from c) (cand_to c) s) cs s).
    unfold iterateUris; rewrite !whileExec_candidates, !Hcs by lia.
    split; reflexivity.
Qed.

(** C1 as stated fails: for [http://foo.test], a string of 15 characters,
    the callback receives the span [(0, 16)]. *)
Lemma C1_to_exceeds_length :
  ~ (forall (isValidDomain : jsstring -> bool) (str : jsstring) l from to,
       spans isValidDomain str = Ok l -> In (from, to) l ->
       (0 <= from < to /\ to <= Z.of_nat (length str))%Z).
Proof.
  intros H.
  specialize (H (fun _ => true) (lit "http://foo.test") [(0, 16)%Z] 0%Z 16%Z).
  assert (Hs : spans (fun _ => true) (lit "http://foo.test") = Ok [(0, 16)%Z])
    by (vm_compute; reflexivity).
  specialize (H Hs (or_introl eq_refl)).
  vm_compute in H. destruct H as [_ H]; apply H; reflexivity.
Qed.

(** C5, the failing input: the text [httpbin.org] is matched by the
    bare-domain alternative (the scheme parenthesis is unset and the
    [domain] parenthesis holds the text), yet the link stays [httpbin.org]:
    no [https://] is put in front, because the text starts with [http]. *)
Theorem C5_bare_domain_http_not_prefixed :
  forall isValidDomain,
    exists m,
      exec flagsUri (lit "httpbin.org") reUri 0 = Some m /\
      group (lit "httpbin.org") m 3 = None /\
      group (lit "httpbin.org") m domainGroup = Some (lit "httpbin.org") /\
      candidates isValidDomain (lit "httpbin.org") =
      Ok [mkCandidate (lit "httpbin.org") 0 12 (lit "httpbin.org")].
Proof.
  intros isValidDomain; eexists; split; [vm_compute; reflexivity|].
  repeat split; vm_compute; reflexivity.
Qed.

(** C6, the failing input: [httpx.zz] is a bare-domain match; whatever the
    validity predicate answers, it is never asked, and the span [(0, 9)] is
    passed to the callback. *)
Theorem C6_invalid_domain_http_emitted :
  forall isValidDomain,
    exists m,
      exec flagsUri (lit "httpx.zz") reUri 0 = Some m /\
      group (lit "httpx.zz") m 3 = None /\
      group (lit "httpx.zz") m domainGroup = Some (lit "httpx.zz") /\
      spans isValidDomain (lit "httpx.zz") = Ok [(0, 9)%Z].
Proof.
  intros isValidDomain; eexists; split; [vm_compute; reflexivity|].
  repeat split; vm_compute; reflexivity.
Qed.

End MoreSpanTheorems.

(* ================================================================== *)
(** * Properties of the decoration synchronizer *)
(* ================================================================== *)

Section PluginFacts.

Variable isValidDomain : jsstring -> bool.

Lemma spans_spanList str : spans isValidDomain str = Ok (spanList isValidDomain str).
Proof.
  unfold spanList.
  rewrite spans_candidates.
  destruct (candidates_chain isValidDomain str) as [cs [-> _]]; reflexivity.
Qed.

Lemma iterateUris_push (block : NodeWithPos) decorations :
  iterateUris isValidDomain (textContent (node block))
    (fun from to decorations =>
       decorations ++ [inline (pos block + from) (pos block + to) "autolink"])
    decorations
  = Ok (decorations ++
        spec_blockDecorations block (spanList isValidDomain (textContent (node block)))).
Proof.
  unfold spanList; rewrite spans_candidates.
  unfold iterateUris, candidates; rewrite whileExec_candidates.
  destruct (@candidatesFrom_total isValidDomain (textContent (node block))
              (length (textContent (node block))) 0)
    as [cs [_ Hcs]]; [lia | lia |].
  rewrite Hcs by lia; simpl.
  rewrite (fold_left_log
             (fun c => inline (pos block + cand_from c) (pos block + cand_to c)
                              "autolink")).
  unfold spec_blockDecorations; now rewrite map_map.
Qed.

Lemma forEach_blocks blocks :
  forall decorations,
    forEach blocks
      (fun paragraphNode decorations =>
         iterateUris isValidDomain (textContent (node paragraphNode))
           (fun from to decorations =>
              decorations ++
              [inline (pos paragraphNode + from) (pos paragraphNode + to)
                      "autolink"])
           decorations)
      decorations
    = Ok (decorations ++
          flat_map (fun block =>
                      spec_blockDecorations block
                        (spanList isValidDomain (textContent (node block))))
                   blocks).
Proof.
  induction blocks as [|b blocks IH]; intros decorations; simpl.
  - now rewrite app_nil_r.
  - rewrite iterateUris_push; simpl. now rewrite IH, app_assoc.
Qed.

Lemma getDecorations_spec doc :
  getDecorations isValidDomain doc = Ok (spec_decorations isValidDomain doc).
Proof.
  unfold getDecorations, findChildren, spec_decorations, isParagraph.
  rewrite forEach_blocks; reflexivity.
Qed.

Lemma mapSet_In set mapping doc d' :
  In d' (mapSet set mapping doc) <->
  exists d, In d set /\ mapDecoration mapping d = Some d'.
Proof.
  induction set as [|d set IH]; simpl.
  - split; [tauto | intros [d [[] _]]].
  - destruct (mapDecoration mapping d) as [e|] eqn:E; simpl; rewrite IH.
    + split.
      * intros [<-|[d0 [Hin Hd0]]]; [exists d; auto | exists d0; auto].
      * intros [d0 [[<-|Hin] Hd0]]; [left; congruence | right; eauto].
    + split.
      * intros [d0 [Hin Hd0]]; exists d0; auto.
      * intros [d0 [[<-|Hin] Hd0]]; [congruence | eauto].
Qed.

End PluginFacts.

(** C9: on initialization the decoration set holds exactly, for each
    paragraph block of the document in document order and each span the
    scanner emits on the flattened text of the block, one decoration at the
    block position plus the span offsets, with the class [autolink]; the
    result is the decoration set alone, the document is only read. *)
Theorem C9_initial_decorations :
  forall isValidDomain doc,
    init isValidDomain doc =
    Ok (flat_map
          (fun block =>
             map (fun ft => mkDecoration (pos block + fst ft)
                                         (pos block + snd ft) "autolink")
                 (spanList isValidDomain (textContent (node block))))
          (filter (fun block => String.eqb (typeName (node block)) "paragraph")
                  (descendants doc))) /\
    (forall block,
       spans isValidDomain (textContent (node block)) =
       Ok (spanList isValidDomain (textContent (node block)))) /\
    (forall set d, init isValidDomain doc = Ok set -> In d set ->
                   styleClass d = "autolink"%string).
Proof.
  intros isValidDomain doc; split; [|split].
  - unfold init; apply getDecorations_spec.
  - intros block; apply spans_spanList.
  - unfold init; rewrite getDecorations_spec; intros set d [= <-] Hd.
    unfold spec_decorations, spec_blockDecorations in Hd.
    apply in_flat_map in Hd; destruct Hd as [b [_ Hd]].
    apply in_map_iff in Hd; destruct Hd as [ft [<- _]]; reflexivity.
Qed.

(** C2 as stated fails: splitting a paragraph keeps the text content of the
    document, yet the decoration set is rebuilt from the new document (it
    becomes empty) instead of being remapped. *)
Lemma C2_text_preserving_change_rebuilds :
  ~ (forall (isValidDomain : jsstring -> bool) tr ds,
       (textContent (before tr) <> textContent (doc tr) ->
        apply isValidDomain tr ds = getDecorations isValidDomain (doc tr)) /\
       (textContent (before tr) = textContent (doc tr) ->
        apply isValidDomain tr ds = Ok (mapSet ds (mapping tr) (doc tr)))).
Proof.
  intros H.
  destruct (H (fun _ => true) splitParagraph [inline 0 12 "autolink"])
    as [_ Hsame].
  specialize (Hsame eq_refl).
  vm_compute in Hsame; discriminate.
Qed.

(** C2 (as amended): a change event whose [docChanged] flag is set rebuilds
    the decoration set from the new document, whatever the old set was and
    whether or not the text changed; an event whose flag is not set remaps
    every decoration of the old set through the position translation of
    the change, with its style class unchanged (a decoration with a deleted
    position is dropped), and the new document is not scanned: the result
    does not depend on it. *)
Theorem C2_apply_by_docChanged :
  forall isValidDomain tr ds,
    (docChanged tr = true ->
     apply isValidDomain tr ds = init isValidDomain (doc tr) /\
     forall ds', apply isValidDomain tr ds' = apply isValidDomain tr ds) /\
    (docChanged tr = false ->
     exists set,
       apply isValidDomain tr ds = Ok set /\
       (forall d from to,
          In d ds -> mapping tr (deco_from d) = Some from ->
          mapping tr (deco_to d) = Some to ->
          In (mkDecoration from to (styleClass d)) set) /\
       (forall d', In d' set ->
          exists d, In d ds /\
                    mapping tr (deco_from d) = Some (deco_from d') /\
                    mapping tr (deco_to d) = Some (deco_to d') /\
                    styleClass d' = styleClass d) /\
       (forall doc',
          apply isValidDomain
                (mkTransaction (before tr) doc' false (mapping tr)) ds
          = Ok set)).
Proof.
  intros isValidDomain tr ds; unfold apply, init; split; intros Hchg;
    rewrite Hchg.
  - split; reflexivity.
  - exists (mapSet ds (mapping tr) (doc tr)); split; [reflexivity|].
    split; [|split].
    + intros d from to Hd Hf Ht. apply mapSet_In.
      exists d; split; [exact Hd|].
      unfold mapDecoration; now rewrite Hf, Ht.
    + intros d' Hd'. apply mapSet_In in Hd'.
      destruct Hd' as [d [Hd Hmap]]; exists d; split; [exact Hd|].
      unfold mapDecoration in Hmap.
      destruct (mapping tr (deco_from d)) as [f|]; [|discriminate].
      destruct (mapping tr (deco_to d)) as [t|]; [|discriminate].
      injection Hmap as <-; simpl; auto.
    + intros doc'; simpl. f_equal.
      induction ds as [|d ds IH]; simpl; [reflexivity|].
      destruct (mapDecoration (mapping tr) d); now rewrite IH.
Qed.

(* ================================================================== *)
(** * Worked examples *)
(* ================================================================== *)

Section Examples.

Variable isValidDomain : jsstring -> bool.

(** The intended path of an invalid bare domain: the iteration is
    abandoned when the link does not start with [http]. *)
Lemma body_skips_invalid str m uri domain :
  group str m 2 = Some uri ->
  startsWith uri (lit "http") = false ->
  group str m domainGroup = Some domain ->
  isValidDomain domain = false ->
  body isValidDomain str m = Ok None.
Proof.
  intros Hu Hs Hd Hv; unfold body, resolveUri.
  rewrite Hu, Hs, Hd, Hv; simpl. now rewrite orb_true_r.
Qed.

Example scan_valid_bare_domain :
  isValidDomain (lit "example.com") = true ->
  candidates isValidDomain (lit "visit example.com now") =
  Ok [mkCandidate (lit "example.com") 6 18 (lit "https://example.com")].
Proof.
  intros H; vm_compute in H; vm_compute; rewrite H; reflexivity.
Qed.

Example scan_invalid_bare_domain_skipped :
  isValidDomain (lit "bad.zz") = false ->
  spans isValidDomain (lit "bad.zz http://a.b") = Ok [(7, 18)%Z].
Proof.
  intros H; vm_compute in H; vm_compute; rewrite H; reflexivity.
Qed.

Example scan_scheme_passthrough :
  candidates isValidDomain (lit "go to http://foo.test/path now") =
  Ok [mkCandidate (lit "http://foo.test/path") 6 27
                  (lit "http://foo.test/path")].
Proof. vm_compute; reflexivity. Qed.

Example scan_trailing_period :
  candidates isValidDomain (lit "check http://foo.test.") =
  Ok [mkCandidate (lit "http://foo.test.") 6 22 (lit "http://foo.test")].
Proof. vm_compute; reflexivity. Qed.

(** The expression matches an upper-case scheme, but the body compares
    with lower-case [http] and finds no [domain]: nothing is emitted. *)
Example scan_upper_case_scheme :
  candidates isValidDomain (lit "HTTP://FOO.COM") = Ok [].
Proof. vm_compute; reflexivity. Qed.

Example scan_adjacent_links :
  spans isValidDomain (lit "http://a.b http://c.d, (http://e.f)") =
  Ok [(0, 11); (11, 22); (24, 35)]%Z.
Proof. vm_compute; reflexivity. Qed.

Example init_sampleDoc :
  init isValidDomain sampleDoc =
  Ok [inline 4 15 "autolink"; inline 32 43 "autolink"].
Proof. vm_compute; reflexivity. Qed.

Example apply_remaps_sampleDoc :
  apply isValidDomain
        (mkTransaction sampleDoc sampleDoc false
                       (fun p => if (p <? 20)%Z then Some (p + 1)%Z else None))
        [inline 4 15 "autolink"; inline 32 43 "autolink"] =
  Ok [inline 5 16 "autolink"].
Proof. vm_compute; reflexivity. Qed.

End Examples.

(* ================================================================== *)
(** * Further properties of the scanner *)
(* ================================================================== *)

Section HeadFacts.

Lemma hd_error_flat_map {A B : Type} (f : A -> list B) l z :
  hd_error (flat_map f l) = Some z ->
  exists y, In y l /\ hd_error (f y) = Some z.
Proof.
  induction l as [|a l IH]; simpl; [discriminate|].
  destruct (f a) as [|b bs] eqn:E; simpl.
  - intros H; destruct (IH H) as [y [Hy Hz]]; exists y; auto.
  - intros [= <-]; exists a; rewrite E; auto.
Qed.

Lemma hd_error_app {A : Type} (l1 l2 : list A) z :
  hd_error (l1 ++ l2) = Some z ->
  hd_error l1 = Some z \/ (l1 = [] /\ hd_error l2 = Some z).
Proof. destruct l1; simpl; auto. Qed.

Lemma hd_error_map {A B : Type} (f : A -> B) l z :
  hd_error (map f l) = Some z -> exists y, hd_error l = Some y /\ z = f y.
Proof. destruct l; simpl; [discriminate|]. intros [= <-]; eauto. Qed.

Variable fl : Flags.
Variable str : jsstring.

Lemma nonSpace_fails c :
  classMatches fl [CNonSpace] c = false -> isSpace c = true.
Proof.
  unfold classMatches, inClass; simpl; destruct (ignoreCase fl).
  - intros H; apply orb_false_iff in H; destruct H as [H _].
    apply orb_false_iff in H; destruct H as [H _].
    rewrite orb_false_r in H; now apply negb_false_iff in H.
  - rewrite orb_false_r; intros H; now apply negb_false_iff in H.
Qed.

Lemma star_nonempty step fuel x : star step fuel x <> [].
Proof.
  destruct fuel; simpl; [discriminate|].
  intros H; apply app_eq_nil in H; destruct H; discriminate.
Qed.

(** The first run of [[\S]*] stops at white space or at the end. *)
Lemma star_nonSpace_hd fuel :
  forall x z,
    length str - endIndex x <= fuel ->
    hd_error (star (fun x' => runs fl str (Class [CNonSpace])
                                   (clearGroups [] x')) fuel x) = Some z ->
    atTokenEnd str (endIndex z).
Proof.
  set (step := fun x' => runs fl str (Class [CNonSpace]) (clearGroups [] x')).
  induction fuel as [|fuel IH]; intros x z Hf; cbn [star].
  - intros [= <-]; unfold atTokenEnd.
    replace (nth_error str (endIndex x)) with (@None CodeUnit); [exact I|].
    symmetry; apply nth_error_None; lia.
  - assert (Hstep : step x =
        match nth_error str (endIndex x) with
        | Some c => if classMatches fl [CNonSpace] c
                    then [mkState (S (endIndex x))
                                  (dropCaptures [] (captures x))]
                    else []
        | None => []
        end) by reflexivity.
    rewrite Hstep; clear Hstep.
    destruct (nth_error str (endIndex x)) as [c|] eqn:Hc.
    + destruct (classMatches fl [CNonSpace] c) eqn:Hm; cbn [flat_map app].
      * cbn [endIndex].
        destruct (Nat.eqb_spec (S (endIndex x)) (endIndex x)); [lia|].
        rewrite app_nil_r; intros H.
        apply hd_error_app in H; destruct H as [H|[H _]].
        -- apply IH in H; [exact H | simpl; lia].
        -- now apply star_nonempty in H.
      * intros [= <-]; unfold atTokenEnd; rewrite Hc.
        now apply nonSpace_fails.
    + cbn [flat_map app]; intros [= <-]; unfold atTokenEnd; now rewrite Hc.
Qed.

(** The match the matcher returns for a term that ends with a greedy run
    of [\S] stops at white space or at the end of the input. *)
Lemma endsGreedy_hd r :
  endsGreedy r = true ->
  forall x z, hd_error (runs fl str r x) = Some z ->
              atTokenEnd str (endIndex z).
Proof.
  induction r as [| |cs|r1 IH1 r2 IH2|r1 IH1 r2 IH2|r IH|r IH|r IH|n r IH];
    cbn [endsGreedy]; try discriminate; intros Hg x z.
  - cbn [runs]; intros H.
    apply hd_error_flat_map in H; destruct H as [y [_ H]]; eauto.
  - apply andb_true_iff in Hg; destruct Hg as [Hg1 Hg2].
    cbn [runs]; intros H.
    apply hd_error_app in H; destruct H as [H|[_ H]]; eauto.
  - destruct r as [| |cs| | | | | |]; try discriminate.
    destruct cs as [|[| | |] [|]]; try discriminate.
    cbn [runs groups]; apply star_nonSpace_hd; lia.
  - destruct r as [| |cs| | | | | |]; try discriminate.
    destruct cs as [|[| | |] [|]]; try discriminate.
    cbn [runs groups]; intros H.
    apply hd_error_flat_map in H; destruct H as [y [_ H]].
    apply star_nonSpace_hd in H; [exact H | lia].
  - cbn [runs]; intros H.
    apply hd_error_map in H; destruct H as [y [H ->]].
    apply (IH Hg) in H; exact H.
Qed.

End HeadFacts.

Section ListFacts.

Lemma nth_error_substring str s e j :
  nth_error (substring str s e) j =
  if j <? e - s then nth_error str (s + j) else None.
Proof.
  unfold substring; rewrite nth_error_firstn, nth_error_skipn; reflexivity.
Qed.

Lemma In_substring str s e ch :
  In ch (substring str s e) <->
  exists k, s <= k < e /\ nth_error str k = Some ch.
Proof.
  split.
  - intros H; apply In_nth_error in H; destruct H as [j Hj].
    rewrite nth_error_substring in Hj.
    destruct (Nat.ltb_spec j (e - s)); [|discriminate].
    exists (s + j); split; [lia | exact Hj].
  - intros [k [Hk Hch]].
    apply nth_error_In with (n := k - s).
    rewrite nth_error_substring.
    destruct (Nat.ltb_spec (k - s) (e - s)); [|lia].
    now replace (s + (k - s)) with k by lia.
Qed.

Lemma firstn_substring str s e n :
  firstn n (substring str s e) = substring str s (s + Nat.min n (e - s)).
Proof.
  unfold substring; rewrite firstn_firstn.
  f_equal; lia.
Qed.

Lemma lastChar_split s c : lastChar s = Some c -> s = removelast s ++ [c].
Proof.
  induction s as [|d s _] using rev_ind.
  - discriminate.
  - rewrite lastChar_snoc, removelast_last; now intros [= ->].
Qed.

(** If [pre ++ m] ends with [tr] and [tr] is no longer than [m], then [tr]
    is a suffix of [m]. *)
Lemma app_suffix_split {A : Type} (pre m u tr : list A) :
  pre ++ m = u ++ tr -> length tr <= length m ->
  exists m', m = m' ++ tr /\ u = pre ++ m'.
Proof.
  intros H Hl.
  assert (Hlen : length pre + length m = length u + length tr)
    by (rewrite <- !length_app; now f_equal).
  exists (firstn (length m - length tr) m).
  assert (Hu : u = pre ++ firstn (length m - length tr) m).
  { apply (f_equal (firstn (length u))) in H.
    rewrite (firstn_app (length u) u), firstn_all, Nat.sub_diag in H.
    simpl in H; rewrite app_nil_r in H; rewrite <- H.
    rewrite firstn_app, firstn_all2 by lia.
    f_equal; f_equal; lia. }
  split; [|exact Hu].
  rewrite Hu, <- app_assoc in H; apply app_inv_head in H.
  exact H.
Qed.

End ListFacts.

Section LoopFacts.

Variable isValidDomain : jsstring -> bool.
Variable str : jsstring.

(** A property that holds at every call of the callback holds of every
    recorded candidate. *)
Lemma candidatesFrom_Forall (P : Candidate -> Prop) :
  (forall lastIndex m c,
     exec flagsUri str reUri lastIndex = Some m ->
     body isValidDomain str m = Ok (Some c) -> P c) ->
  forall fuel lastIndex cs,
    candidatesFrom isValidDomain str fuel lastIndex = Ok cs -> Forall P cs.
Proof.
  intros HP; induction fuel as [|fuel IH]; intros li cs; simpl;
    [discriminate|].
  destruct (exec flagsUri str reUri li) as [m|] eqn:E;
    [|intros [= <-]; constructor].
  destruct (body isValidDomain str m) as [[c|]| |] eqn:Eb; simpl;
    try discriminate;
    destruct (candidatesFrom isValidDomain str fuel (lastIndexOf m))
      as [cs'| |] eqn:Ec; simpl; try discriminate; intros [= <-].
  - constructor; eauto.
  - eauto.
Qed.

Lemma resolveUri_Some uri domain u0 :
  resolveUri isValidDomain uri domain = Some u0 ->
  u0 = (if startsWith uri (lit "http") then [] else lit "https://") ++ uri.
Proof.
  unfold resolveUri; destruct (startsWith uri (lit "http")); simpl.
  - now intros [= <-].
  - destruct domain as [d|]; [|discriminate].
    destruct (_ || _); [discriminate | now intros [= <-]].
Qed.

(** The candidate of an iteration that reaches the callback, in terms of
    the match it comes from. *)
Lemma body_Some lastIndex m c :
  exec flagsUri str reUri lastIndex = Some m ->
  body isValidDomain str m = Ok (Some c) ->
  exists s u0,
    UriMatch str (index m) (final m) s /\
    cand_match c = substring str s (lastIndexOf m) /\
    cand_from c = Z.of_nat s /\
    resolveUri isValidDomain (cand_match c) (group str m domainGroup)
    = Some u0 /\
    (cand_uri c, cand_to c) = spec_trim (u0, (Z.of_nat (lastIndexOf m) + 1)%Z).
Proof.
  intros E Hb; apply exec_uri in E; destruct E as [_ [s Hm]].
  unfold lastIndexOf in *.
  pose proof (um_long Hm). pose proof (um_bound Hm).
  assert (Hg : group str m 2 = Some (substring str s (endIndex (final m))))
    by (unfold group; now rewrite (um_link Hm)).
  unfold body in Hb; rewrite Hg in Hb.
  set (m2 := substring str s (endIndex (final m))) in *.
  destruct (resolveUri isValidDomain m2 (group str m domainGroup))
    as [u0|] eqn:Er; [|discriminate].
  assert (Hfrom : indexOf str m2 (index m) = Z.of_nat s)
    by (apply indexOf_link; [apply (um_preceded Hm) | apply (um_letter Hm)
                             | lia | lia]).
  assert (Hlen : length m2 = endIndex (final m) - s)
    by (apply substring_length; lia).
  rewrite stripPunct_spec, stripParen_spec, Hfrom, Hlen in Hb.
  fold (spec_trim (u0, (Z.of_nat s + Z.of_nat (endIndex (final m) - s) + 1)%Z))
    in Hb.
  replace (Z.of_nat s + Z.of_nat (endIndex (final m) - s) + 1)%Z
    with (Z.of_nat (endIndex (final m)) + 1)%Z in Hb by lia.
  destruct (spec_trim (u0, (Z.of_nat (endIndex (final m)) + 1)%Z))
    as [uri' to'] eqn:Et.
  injection Hb as <-; simpl.
  exists s, u0; split; [exact Hm|]; repeat split; auto.
Qed.

(** The match [exec] returns ends at white space or at the end. *)
Lemma exec_token_end lastIndex m :
  exec flagsUri str reUri lastIndex = Some m ->
  atTokenEnd str (lastIndexOf m).
Proof.
  unfold exec; intros H; apply firstMatch_Some in H; destruct H as [_ H].
  unfold matchAt in H.
  apply (endsGreedy_hd flagsUri str reUri eq_refl) in H; exact H.
Qed.

End LoopFacts.

Section MoreUriFacts.

Variable str : jsstring.

Local Abbreviation Matches := (Matches flagsUri str).

(** A literal character that is not a letter matches itself only. *)
Lemma literal_class k c :
  isAsciiLetter k = false ->
  classMatches flagsUri [CChar k] c = true -> c = k.
Proof.
  intros Hk H; apply classMatches_ci in H.
  destruct H as [a [c' [[<-|[]] [Hin Hc']]]]; simpl in Hin.
  apply N.eqb_eq in Hin; subst c'.
  unfold isAsciiLetter in Hk.
  apply orb_false_iff in Hk; destruct Hk as [Hu Hl].
  apply andb_false_iff in Hu; apply andb_false_iff in Hl.
  rewrite !N.leb_gt in Hu, Hl.
  destruct Hc' as [->|[->| ->]]; auto.
  - destruct (toUpper_cases c) as [E|[Hc E]]; [auto | rewrite E in *; lia].
  - destruct (toLower_cases c) as [E|[Hc E]]; [auto | rewrite E in *; lia].
Qed.

Ltac inv_seq := match goal with H : Matches (Seq _ _) _ _ |- _ => inv H end.
Ltac inv_chr := match goal with H : Matches (chr _) _ _ |- _ => inv H end.
Ltac le_of := repeat match goal with
  | H : Matches _ _ _ |- _ => apply matches_le in H end.

Ltac pick_char k :=
  let k' := eval compute in k in
  match goal with
  | Hc : classMatches flagsUri [CChar k'] ?c = true,
    Hn : nth_error str ?p = Some ?c |- _ =>
      exists p, c; split; [simpl in *; lia | split; [exact Hn|]];
      apply literal_class in Hc; [|reflexivity]
  end.

(** The link text holds a [.] or a [:]. *)
Lemma link_separator x y :
  Matches (Alt reScheme reBare) x y ->
  exists k ch, endIndex x <= k < endIndex y /\
               nth_error str k = Some ch /\ (ch = cu "." \/ ch = cu ":").
Proof.
  intros H; inv H.
  - unfold reScheme in *; cbn [seqs] in *.
    match goal with H : Matches (Group _ _) _ _ |- _ => inv H end.
    inv_seq. inv_chr. inv_seq. inv_chr. inv_seq. inv_chr. inv_seq. inv_chr.
    inv_seq.
    match goal with H : Matches (Quest _) _ _ |- _ => inv H end.
    + inv_seq. inv_chr. le_of. pick_char (cu ":"). now right.
    + inv_chr. inv_seq. inv_chr. le_of. pick_char (cu ":"). now right.
  - unfold reBare, reDomain in *; cbn [seqs] in *.
    match goal with H : Matches (Group _ _) _ _ |- _ => inv H end.
    inv_seq.
    match goal with H : Matches (Group _ _) _ _ |- _ => inv H end.
    inv_seq.
    match goal with H : Matches (Class _) _ _ |- _ => inv H end.
    inv_seq.
    match goal with H : Matches (Plus _) _ _ |- _ => inv H end.
    match goal with H : Matches (Group _ _) _ _ |- _ => inv H end.
    inv_seq. inv_chr. le_of. pick_char (cu "."). now left.
Qed.

Lemma alnum_class c :
  classMatches flagsUri alnum c = true -> isAsciiAlnum c = true.
Proof.
  intros H; apply classMatches_ci in H.
  destruct H as [a [c' [Ha [Hin Hc']]]].
  unfold isAsciiAlnum, isAsciiLetter.
  destruct Ha as [<-|[<-|[]]]; simpl in Hin;
    apply andb_true_iff in Hin; destruct Hin as [Hlo Hhi];
    apply N.leb_le in Hlo, Hhi;
    destruct Hc' as [->|[->| ->]];
    try (destruct (toUpper_cases c) as [E|[Hc E]]; rewrite E in *);
    try (destruct (toLower_cases c) as [E|[Hc E]]; rewrite E in *);
    rewrite !orb_true_iff, !andb_true_iff, !N.leb_le; lia.
Qed.

Lemma lower_class_alnum c :
  classMatches flagsUri lower c = true -> isAsciiAlnum c = true.
Proof.
  intros H; unfold isAsciiAlnum.
  now rewrite (lower_class_letter lower c eq_refl H).
Qed.

(** A match of the bare-domain alternative starts with a label of letters
    and digits followed by a [.]. *)
Lemma bare_label x y :
  Matches reBare x y ->
  exists k, endIndex x < k < endIndex y /\
    nth_error str k = Some (cu ".") /\
    forall j, endIndex x <= j < k ->
      exists ch, nth_error str j = Some ch /\ isAsciiAlnum ch = true.
Proof.
  unfold reBare, reDomain; cbn [seqs]; intros H.
  inv H. inv_seq.
  match goal with H : Matches (Star _) _ _ |- _ => apply matches_le in H end.
  match goal with H : Matches (Group _ _) _ _ |- _ => inv H end.
  inv_seq.
  match goal with H : Matches (Class lower) _ _ |- _ => inv H end.
  inv_seq.
  match goal with H : Matches (Star (Class alnum)) ?u ?v |- _ =>
    pose proof (matches_le H) as Hle;
    pose proof (matches_chars (fun ch => isAsciiAlnum ch = true) H) as Hlabel
  end.
  match goal with H : Matches (Plus _) _ _ |- _ => inv H end.
  match goal with H : Matches (Star (Group _ _)) _ _ |- _ =>
    apply matches_le in H end.
  match goal with H : Matches (Group _ _) _ _ |- _ => inv H end.
  inv_seq. inv_chr.
  match goal with H : Matches (Plus _) _ _ |- _ => apply matches_le in H end.
  match goal with
  | Hc : classMatches flagsUri [CChar _] ?c = true,
    Hn : nth_error str ?p = Some ?c |- _ =>
      apply literal_class in Hc; [|reflexivity]; subst c;
      exists p; simpl in *; split; [lia | split; [exact Hn|]]
  end.
  intros j Hj.
  destruct (Nat.eq_dec j (endIndex x)) as [->|Hne].
  - eexists; split; [eassumption|]. now apply lower_class_alnum.
  - apply Hlabel; [|simpl; lia].
    intros cs c0 [<-|[]]; apply alnum_class.
Qed.

(** The [domain] parenthesis, when set, starts with the link text and ends
    inside it. *)
Lemma link_domain x y a b :
  Matches (Alt reScheme reBare) x y ->
  capture domainGroup (captures x) = None ->
  capture domainGroup (captures y) = Some (a, b) ->
  a = endIndex x /\ b <= endIndex y.
Proof.
  intros H Hx Hy; inv H.
  - match goal with H : Matches reScheme _ _ |- _ =>
      apply (matches_capture_other domainGroup) in H end.
    + congruence.
    + unfold domainGroup; simpl; intuition discriminate.
  - unfold reBare in *.
    match goal with H : Matches (Group _ _) _ _ |- _ => inv H end.
    rewrite capture_setCapture_other in Hy by discriminate.
    inv_seq.
    match goal with H : Matches (Star _) ?u ?v |- _ =>
      pose proof (matches_capture_other domainGroup H) as Hk;
      apply matches_le in H end.
    rewrite Hk in Hy by (simpl; tauto).
    unfold reDomain in *.
    match goal with H : Matches (Group _ _) _ _ |- _ => inv H end.
    rewrite capture_setCapture_same in Hy. injection Hy as <- <-.
    simpl in *; split; [reflexivity | lia].
Qed.

(** Both facts for a match of the whole expression: [s] is the start of
    the link text, as recorded by parenthesis 2. *)
Lemma uri_link_facts i y :
  Matches reUri (mkState i []) y ->
  exists s, capture 2 (captures y) = Some (s, endIndex y) /\
    (exists k ch, s <= k < endIndex y /\ nth_error str k = Some ch /\
                  (ch = cu "." \/ ch = cu ":")) /\
    (forall a b, capture domainGroup (captures y) = Some (a, b) ->
                 a = s /\ b <= endIndex y) /\
    (capture domainGroup (captures y) <> None ->
     exists k, s < k < endIndex y /\ nth_error str k = Some (cu ".") /\
       forall j, s <= j < k ->
         exists ch, nth_error str j = Some ch /\ isAsciiAlnum ch = true).
Proof.
  unfold reUri; intros H; inv H.
  match goal with Hp : Matches rePrefix _ ?x1 |- _ =>
    assert (Hx1 : capture domainGroup (captures x1) = None) end.
  { unfold rePrefix in *.
    match goal with H : Matches (Group 1 _) _ _ |- _ => inv H end.
    rewrite capture_setCapture_other by discriminate.
    match goal with H : Matches (Alt _ _) _ _ |- _ => inv H end.
    - match goal with H : Matches Bol _ _ |- _ => inv H end. reflexivity.
    - match goal with H : Matches (Alt _ _) _ _ |- _ => inv H end.
      + match goal with H : Matches (Class _) _ _ |- _ => inv H end.
        reflexivity.
      + inv_chr. reflexivity. }
  match goal with H : Matches (Group 2 _) ?x1 _ |- _ =>
    exists (endIndex x1); inv H end.
  split; [apply capture_setCapture_same|]; split; [|split].
  - match goal with H : Matches (Alt _ _) _ _ |- _ =>
      apply link_separator in H; exact H end.
  - intros a b Hab.
    rewrite capture_setCapture_other in Hab by discriminate.
    match goal with H : Matches (Alt _ _) _ _ |- _ =>
      apply (link_domain H Hx1 Hab) end.
  - intros Hsome.
    rewrite capture_setCapture_other in Hsome by discriminate.
    match goal with H : Matches (Alt _ _) _ _ |- _ => inv H end.
    + exfalso; apply Hsome.
      match goal with H : Matches reScheme _ _ |- _ =>
        rewrite (matches_capture_other domainGroup H); [exact Hx1|] end.
      unfold domainGroup; simpl; intuition discriminate.
    + match goal with H : Matches reBare _ _ |- _ =>
        apply bare_label in H; exact H end.
Qed.

End MoreUriFacts.

Section IterationFacts.

Variable isValidDomain : jsstring -> bool.
Variable str : jsstring.

Lemma isPrefix_substring_shorter s b e :
  b <= e -> isPrefix (substring str s b) (substring str s e) = true.
Proof.
  intros Hbe; unfold substring.
  replace (firstn (b - s) (skipn s str))
    with (firstn (b - s) (firstn (e - s) (skipn s str))).
  - apply isPrefix_firstn.
  - rewrite firstn_firstn; f_equal; lia.
Qed.

Local Abbreviation Iteration := (Iteration isValidDomain str).

Lemma iteration_facts lastIndex m c :
  exec flagsUri str reUri lastIndex = Some m ->
  body isValidDomain str m = Ok (Some c) ->
  exists s e, Iteration m c s e.
Proof.
  intros E Hb.
  pose proof (exec_token_end _ _ E) as Hend.
  destruct (body_Some isValidDomain _ _ E Hb)
    as [s [u0 [Hm [Hmatch [Hfrom [Hres Htrim]]]]]].
  apply exec_Some in E; destruct E as [_ E].
  apply uri_link_facts in E; destruct E as [s' [Hc2 [Hsep [Hdom Hlabel]]]].
  rewrite (um_link Hm) in Hc2; injection Hc2 as <-.
  exists s, (lastIndexOf m); split; auto;
    try apply (um_long Hm); try apply (um_bound Hm);
    try apply (um_letter Hm); try apply (um_chars Hm).
  - intros d Hd; unfold group in Hd.
    destruct (capture domainGroup (captures (final m))) as [[a b]|] eqn:Hc;
      [|discriminate].
    injection Hd as <-.
    destruct (Hdom a b eq_refl) as [-> Hb'].
    rewrite Hmatch; now apply isPrefix_substring_shorter.
  - intros Hg; apply Hlabel; intros Hc; apply Hg.
    unfold group; now rewrite Hc.
  - exists u0; auto.
Qed.

Lemma candidates_iterations cs :
  candidates isValidDomain str = Ok cs ->
  Forall (fun c => exists m s e, Iteration m c s e) cs.
Proof.
  apply candidatesFrom_Forall.
  intros li m c E Hb; exists m; eapply iteration_facts; eauto.
Qed.

End IterationFacts.

Section TrimTheorems.

Lemma existsb_snoc {A : Type} (f : A -> bool) l a :
  existsb f (l ++ [a]) = existsb f l || f a.
Proof. rewrite existsb_app; simpl; now rewrite orb_false_r. Qed.

Lemma isTrailingPunct_not_paren c :
  isTrailingPunct c = true -> (cu "(" =? c)%N = false.
Proof.
  unfold isTrailingPunct; intros H.
  repeat (apply orb_true_iff in H; destruct H as [H|H]);
    apply N.eqb_eq in H; subst c; reflexivity.
Qed.

Lemma punct_no_paren tr :
  forallb isTrailingPunct tr = true -> existsb (N.eqb (cu "(")) tr = false.
Proof.
  induction tr as [|c tr IH]; cbn [existsb forallb]; [reflexivity|].
  intros H; apply andb_true_iff in H; destruct H as [Hc Htr].
  now rewrite isTrailingPunct_not_paren, IH.
Qed.

Lemma spec_trimPunct_split u t :
  exists tr,
    u = fst (spec_trimPunct (u, t)) ++ tr /\
    snd (spec_trimPunct (u, t)) = (t - Z.of_nat (length tr))%Z /\
    length tr <= 1 /\ forallb isTrailingPunct tr = true.
Proof.
  unfold spec_trimPunct; cbn [fst snd].
  destruct (lastChar u) as [c|] eqn:Hc;
    [destruct (isTrailingPunct c) eqn:Hp|].
  - exists [c]; cbv iota; cbn [fst snd]; split; [|split; [|split]].
    + now apply lastChar_split.
    + simpl; lia.
    + simpl; lia.
    + simpl; now rewrite Hp.
  - exists []; cbv iota; cbn [fst snd]; split; [|split; [|split]];
      simpl; auto; try lia.
    now rewrite app_nil_r.
  - exists []; cbv iota; cbn [fst snd]; split; [|split; [|split]];
      simpl; auto; try lia.
    now rewrite app_nil_r.
Qed.

Lemma spec_trimParen_split u t :
  exists tr,
    u = fst (spec_trimParen (u, t)) ++ tr /\
    snd (spec_trimParen (u, t)) = (t - Z.of_nat (length tr))%Z /\
    (tr = [] \/ (tr = [cu ")"] /\ existsb (N.eqb (cu "(")) u = false)).
Proof.
  unfold spec_trimParen; cbn [fst snd].
  destruct (lastChar u) as [c|] eqn:Hc;
    [destruct ((c =? cu ")")%N && negb (existsb (N.eqb (cu "(")) u)) eqn:Hq|].
  - apply andb_true_iff in Hq; destruct Hq as [Hq Hno].
    apply N.eqb_eq in Hq; subst c. apply negb_true_iff in Hno.
    exists [cu ")"]; cbv iota; cbn [fst snd]; split; [|split].
    + now apply lastChar_split.
    + cbn [length]; lia.
    + right; auto.
  - exists []; cbv iota; cbn [fst snd]; split; [|split]; auto.
    + now rewrite app_nil_r.
    + cbn [length]; lia.
  - exists []; cbv iota; cbn [fst snd]; split; [|split]; auto.
    + now rewrite app_nil_r.
    + cbn [length]; lia.
Qed.

(** The two steps together take away a suffix of at most two trimmable
    characters, and only a punctuation mark when the link holds a [(]. *)
Lemma spec_trim_split u t :
  exists trimmed,
    u = fst (spec_trim (u, t)) ++ trimmed /\
    snd (spec_trim (u, t)) = (t - Z.of_nat (length trimmed))%Z /\
    length trimmed <= 2 /\
    forallb isTrimmable trimmed = true /\
    (existsb (N.eqb (cu "(")) u = true ->
     length trimmed <= 1 /\ forallb isTrailingPunct trimmed = true).
Proof.
  unfold spec_trim.
  destruct (spec_trimPunct_split u t) as [tr1 [Hu1 [Ht1 [Hl1 Hp1]]]].
  destruct (spec_trimPunct (u, t)) as [u1 t1]; cbn [fst snd] in *.
  destruct (spec_trimParen_split u1 t1) as [tr2 [Hu2 [Ht2 Hq2]]].
  destruct (spec_trimParen (u1, t1)) as [u2 t2]; cbn [fst snd] in *.
  exists (tr2 ++ tr1); split; [|split; [|split; [|split]]].
  - rewrite Hu1 at 1; rewrite Hu2 at 1; now rewrite <- app_assoc.
  - rewrite length_app; lia.
  - rewrite length_app; destruct Hq2 as [->|[-> _]]; cbn [length]; lia.
  - rewrite forallb_app; apply andb_true_iff; split.
    + destruct Hq2 as [->|[-> _]]; reflexivity.
    + clear -Hp1; induction tr1 as [|c tr IH]; cbn [forallb] in *;
        [reflexivity|].
      apply andb_true_iff in Hp1; destruct Hp1 as [Hc Htr].
      unfold isTrimmable at 1; rewrite Hc; simpl; auto.
  - intros H; destruct Hq2 as [->|[-> Hno]]; [split; [simpl; lia | exact Hp1]|].
    exfalso. rewrite Hu1, existsb_app in H.
    apply orb_true_iff in H; destruct H as [H|H].
    + exact (eq_true_false_abs _ H Hno).
    + exact (eq_true_false_abs _ H (punct_no_paren _ Hp1)).
Qed.

(** X3: the two trimming statements of the loop body take away a suffix of
    at most two characters, each among [. , ; ! ? )], and lower [to] by the
    number of characters taken; when the link holds an open parenthesis,
    at most one character, a punctuation mark, is taken. *)
Theorem X3_trim_suffix :
  forall (uri : jsstring) (to : Z),
    exists trimmed,
      uri = fst (stripParen (stripPunct (uri, to))) ++ trimmed /\
      snd (stripParen (stripPunct (uri, to)))
      = (to - Z.of_nat (length trimmed))%Z /\
      length trimmed <= 2 /\
      forallb isTrimmable trimmed = true /\
      (existsb (N.eqb (cu "(")) uri = true ->
       length trimmed <= 1 /\ forallb isTrailingPunct trimmed = true).
Proof.
  intros uri to; rewrite stripPunct_spec, stripParen_spec.
  apply spec_trim_split.
Qed.

End TrimTheorems.

Section FurtherSpanTheorems.

Variable isValidDomain : jsstring -> bool.
Variable str : jsstring.

Local Abbreviation Iteration := (Iteration isValidDomain str).

(** What is kept of the link text after trimming, and what [to] and [uri]
    are in terms of it. *)
Lemma Iteration_kept m c s e :
  Iteration m c s e ->
  exists t trimmed,
    cand_to c = (Z.of_nat t + 1)%Z /\ s < t /\ t <= e /\
    cand_match c = substring str s t ++ trimmed /\
    length trimmed <= 2 /\ forallb isTrimmable trimmed = true /\
    cand_uri c =
    (if startsWith (cand_match c) (lit "http") then [] else lit "https://")
    ++ substring str s t.
Proof.
  intros It. destruct (it_resolve It) as [u0 [Hres Htrim]].
  apply resolveUri_Some in Hres.
  destruct (spec_trim_split u0 (Z.of_nat e + 1)) as [tr [Hu [Ht [Hl [Hp _]]]]].
  rewrite <- Htrim in Hu, Ht; cbn [fst snd] in Hu, Ht.
  pose proof (it_long It) as Hlong. pose proof (it_bound It) as Hb.
  assert (Hlen : length (cand_match c) = e - s)
    by (rewrite (it_match It); apply substring_length; exact Hb).
  rewrite Hres in Hu.
  apply app_suffix_split in Hu; [|lia].
  destruct Hu as [m' [Hm Huri]].
  assert (Hm' : m' = substring str s (e - length tr)).
  { assert (Hl' : length m' = e - s - length tr)
      by (rewrite Hm, length_app in Hlen; lia).
    replace m' with (firstn (length m') (cand_match c))
      by (rewrite Hm, firstn_app, firstn_all, Nat.sub_diag; simpl;
          apply app_nil_r).
    rewrite (it_match It), firstn_substring; f_equal; lia. }
  exists (e - length tr), tr; repeat split; try lia; auto.
  - now rewrite <- Hm'.
  - now rewrite <- Hm'.
Qed.

Lemma candidates_Forall_In cs (P : Candidate -> Prop) :
  candidates isValidDomain str = Ok cs ->
  (forall m c s e, Iteration m c s e -> P c) ->
  forall c, In c cs -> P c.
Proof.
  intros Hcs HP c Hc.
  pose proof (candidates_iterations _ _ Hcs) as Hall.
  rewrite Forall_forall in Hall.
  destruct (Hall c Hc) as [m [s [e It]]]; eauto.
Qed.

(** X1: the link text of every candidate passed to the callback starts
    with an ASCII letter, holds no white space, and holds a [.] or a [:]. *)
Theorem X1_link_text_shape :
  exists cs, candidates isValidDomain str = Ok cs /\
    forall c, In c cs ->
      (exists ch rest, cand_match c = ch :: rest /\ isAsciiLetter ch = true) /\
      (forall ch, In ch (cand_match c) -> isSpace ch = false) /\
      (exists ch, In ch (cand_match c) /\ (ch = cu "." \/ ch = cu ":")).
Proof.
  destruct (candidates_chain isValidDomain str) as [cs [Hcs _]].
  exists cs; split; [exact Hcs|].
  apply (@candidates_Forall_In cs _ Hcs); intros m c s e It.
  pose proof (it_long It) as Hlong.
  rewrite (it_match It); split; [|split].
  - destruct (it_letter It) as [ch [Hch Hl]].
    exists ch; eexists; split; [|exact Hl].
    apply substring_cons; [exact Hch | lia].
  - intros ch Hin; apply In_substring in Hin.
    destruct Hin as [k [Hk Hch]].
    destruct (it_chars It Hk) as [ch' [Hch' Hs]]. congruence.
  - destruct (it_separator It) as [k [ch [Hk [Hch Hsep]]]].
    exists ch; split; [|exact Hsep].
    apply In_substring; eauto.
Qed.

(** X2: the link text of every candidate runs up to the next white space:
    it lies at [from] in the string, and the position after it is the end
    of the string or holds a white-space character. *)
Theorem X2_link_text_maximal :
  exists cs, candidates isValidDomain str = Ok cs /\
    forall c, In c cs ->
      exists s, cand_from c = Z.of_nat s /\
        cand_match c = substring str s (s + length (cand_match c)) /\
        (s + length (cand_match c) = length str \/
         exists ch, nth_error str (s + length (cand_match c)) = Some ch /\
                    isSpace ch = true).
Proof.
  destruct (candidates_chain isValidDomain str) as [cs [Hcs _]].
  exists cs; split; [exact Hcs|].
  apply (@candidates_Forall_In cs _ Hcs); intros m c s e It.
  pose proof (it_long It) as Hlong. pose proof (it_bound It) as Hb.
  assert (Hlen : s + length (cand_match c) = e)
    by (rewrite (it_match It), substring_length; lia).
  exists s; rewrite Hlen; split; [apply (it_from It)|]; split;
    [apply (it_match It)|].
  pose proof (it_end It) as Hend; unfold atTokenEnd in Hend.
  destruct (nth_error str e) as [ch|] eqn:Hch.
  - right; exists ch; auto.
  - left; apply nth_error_None in Hch; lia.
Qed.

(** X4: a span denotes the kept part of the link text.  For every
    candidate, [to - 1] is the end of what trimming keeps: the link text is
    [str[from .. to - 1)] followed by the at most two trimmed characters,
    and [uri] is [str[from .. to - 1)], with [https://] in front when the
    link text does not start with [http]. *)
Theorem X4_span_denotes_link :
  exists cs, candidates isValidDomain str = Ok cs /\
    forall c, In c cs ->
      exists s t trimmed,
        cand_from c = Z.of_nat s /\ cand_to c = (Z.of_nat t + 1)%Z /\
        s < t /\ t <= length str /\
        cand_match c = substring str s t ++ trimmed /\
        length trimmed <= 2 /\ forallb isTrimmable trimmed = true /\
        cand_uri c =
        (if startsWith (cand_match c) (lit "http") then []
         else lit "https://") ++ substring str s t.
Proof.
  destruct (candidates_chain isValidDomain str) as [cs [Hcs _]].
  exists cs; split; [exact Hcs|].
  apply (@candidates_Forall_In cs _ Hcs); intros m c s e It.
  destruct (Iteration_kept It) as [t [tr [Hto [Hst [Hte [Hm [Hl [Hp Hu]]]]]]]].
  pose proof (it_bound It).
  exists s, t, tr; repeat split; auto; try lia.
  apply (it_from It).
Qed.


(** X6: the callback receives the spans of the string in order, whatever
    it does with them: for every callback and initial state,
    [iterateUris] returns the state obtained by calling the callback on the
    successive spans. *)
Theorem X6_callback_fold :
  forall (St : Type) (cb : Z -> Z -> St -> St) (s : St),
    iterateUris isValidDomain str cb s =
    Ok (fold_left (fun acc ft => cb (fst ft) (snd ft) acc)
                  (spanList isValidDomain str) s).
Proof.
  intros St cb s.
  unfold spanList; rewrite spans_candidates.
  unfold iterateUris at 1; rewrite whileExec_candidates.
  fold (candidates isValidDomain str).
  destruct (candidates_chain isValidDomain str) as [cs [-> _]]; simpl.
  f_equal. generalize s; clear s.
  induction cs as [|c cs IH]; intros s; simpl; [reflexivity | apply IH].
Qed.

End FurtherSpanTheorems.

(** X5: a string that holds neither [.] nor [:] (the empty string, plain
    words) has no link: the callback is never called and the state is
    returned as it was. *)
Theorem X5_plain_text_no_call :
  forall (isValidDomain : jsstring -> bool) (str : jsstring),
    (forall ch, In ch str -> ch <> cu "." /\ ch <> cu ":") ->
    forall (St : Type) (cb : Z -> Z -> St -> St) (s : St),
      iterateUris isValidDomain str cb s = Ok s.
Proof.
  intros isValidDomain str Hplain St cb s.
  unfold iterateUris; rewrite whileExec_candidates.
  fold (candidates isValidDomain str).
  destruct (candidates_chain isValidDomain str) as [cs [Hcs _]].
  rewrite Hcs; simpl.
  destruct cs as [|c cs]; [reflexivity | exfalso].
  pose proof (candidates_iterations _ _ Hcs) as Hall.
  apply Forall_inv in Hall; destruct Hall as [m [s0 [e It]]].
  destruct (it_separator It) as [k [ch [_ [Hch Hsep]]]].
  apply nth_error_In in Hch; apply Hplain in Hch.
  destruct Hsep; tauto.
Qed.

Lemma X5_plain_text_no_call_witness :
  (forall ch, In ch (lit "hello world") -> ch <> cu "." /\ ch <> cu ":") /\
  iterateUris (fun _ => true) (lit "hello world") (fun _ _ n => S n) 0 = Ok 0.
Proof.
  assert (H : forall ch, In ch (lit "hello world") ->
                         ch <> cu "." /\ ch <> cu ":").
  { intros ch Hin; simpl in Hin.
    repeat (destruct Hin as [<-|Hin]; [split; discriminate|]).
    destruct Hin. }
  split; [exact H|].
  apply (X5_plain_text_no_call (fun _ => true) (lit "hello world") H).
Defined.

Section DecorationTheorems.

Variable isValidDomain : jsstring -> bool.

(** The text of a node is no longer than the node is wide; a node with
    content is two positions wider. *)
Lemma textContent_nodeSize :
  forall n,
    (Z.of_nat (length (textContent n)) +
     match n with ElemNode _ _ => 2 | _ => 0 end <= nodeSize n)%Z.
Proof.
  fix IH 1; intros [text|name|name content]; cbn -[Z.add Z.of_nat].
  - lia.
  - lia.
  - induction content as [|c content IHc]; cbn -[Z.add Z.of_nat]; [lia|].
    specialize (IH c).
    rewrite length_app, Nat2Z.inj_add.
    destruct c; cbv iota in IH; lia.
Qed.

(** X8: every decoration of the initial set lies inside a paragraph block:
    it starts at or after the position of the paragraph, is not empty, and
    ends before the closing position of the paragraph, at most one
    position after its text. *)
Theorem X8_decoration_inside_paragraph :
  forall doc,
    exists set, init isValidDomain doc = Ok set /\
      forall d, In d set ->
        exists block,
          In block (findChildren doc
                      (fun node => String.eqb (typeName node) "paragraph")) /\
          (pos block <= deco_from d < deco_to d)%Z /\
          (deco_to d <=
           pos block + Z.of_nat (length (textContent (node block))) + 1)%Z /\
          (deco_to d < pos block + nodeSize (node block))%Z.
Proof.
  intros doc; exists (spec_decorations isValidDomain doc); split.
  - unfold init; apply getDecorations_spec.
  - intros d Hd; unfold spec_decorations in Hd.
    apply in_flat_map in Hd; destruct Hd as [block [Hblock Hd]].
    exists block; split; [exact Hblock|].
    unfold spec_blockDecorations in Hd.
    apply in_map_iff in Hd; destruct Hd as [[from to] [<- Hft]]; simpl.
    unfold spanList in Hft; rewrite spans_candidates in Hft.
    destruct (candidates_chain isValidDomain (textContent (node block)))
      as [cs [Hcs Hchain]].
    rewrite Hcs in Hft; simpl in Hft.
    apply in_map_iff in Hft; destruct Hft as [c [[= <- <-] Hc]].
    destruct (Chain_In c Hchain Hc) as [i [s [e [_ Hem]]]].
    apply Emitted_span in Hem.
    pose proof (textContent_nodeSize (node block)) as Hsize.
    destruct (node block) as [text|name|name content] eqn:Hn.
    + apply filter_In in Hblock; destruct Hblock as [_ Hp].
      rewrite Hn in Hp; discriminate.
    + cbn [textContent length] in Hem; lia.
    + cbv iota in Hsize; lia.
Qed.

Lemma mapSet_identity set mapping doc :
  (forall p, mapping p = Some p) -> mapSet set mapping doc = set.
Proof.
  intros Hid; induction set as [|[from to class] set IH]; simpl;
    [reflexivity|].
  unfold mapDecoration; simpl; now rewrite !Hid, IH.
Qed.

Lemma applyTransactions_sync trs :
  forall state,
    Delivered (currentDoc state) trs ->
    getDecorations isValidDomain (currentDoc state) = Ok (pluginState state) ->
    exists state',
      applyTransactions isValidDomain state trs = Ok state' /\
      currentDoc state' = lastDoc (currentDoc state) trs /\
      getDecorations isValidDomain (currentDoc state')
      = Ok (pluginState state').
Proof.
  induction trs as [|tr trs IH]; intros state Hd Hsync.
  - exists state; auto.
  - destruct Hd as [Hbefore [Hquiet Hd]].
    cbn [applyTransactions]; unfold applyTransaction, apply.
    destruct (docChanged tr) eqn:Hchg.
    + rewrite getDecorations_spec; simpl.
      apply (IH (mkEditorState (doc tr) _)); simpl; auto.
      apply getDecorations_spec.
    + destruct (Hquiet eq_refl) as [Hdoc Hid]; simpl.
      rewrite mapSet_identity by exact Hid.
      apply (IH (mkEditorState (doc tr) _)); simpl; auto.
      now rewrite Hdoc.
Qed.

(** X9: the decorations follow the document.  After attachment to a
    revision and any series of change events delivered by the host (an
    event without the [docChanged] flag keeps the revision and translates
    positions to themselves), the decorations the plugin hands to the view
    are those [getDecorations] computes for the current revision. *)
Theorem X9_decorations_in_sync :
  forall d trs,
    Delivered d trs ->
    exists state,
      (state0 <- createState isValidDomain d ;;
       applyTransactions isValidDomain state0 trs) = Ok state /\
      currentDoc state = lastDoc d trs /\
      getDecorations isValidDomain (currentDoc state)
      = Ok (decorations state).
Proof.
  intros d trs Hd; unfold createState, init.
  rewrite getDecorations_spec; simpl.
  apply (applyTransactions_sync _ (mkEditorState d _)); simpl; auto.
  apply getDecorations_spec.
Qed.

End DecorationTheorems.

Lemma X9_decorations_in_sync_witness :
  Delivered sampleDoc sampleEvents /\
  exists state,
    (state0 <- createState (fun _ => true) sampleDoc ;;
     applyTransactions (fun _ => true) state0 sampleEvents) = Ok state /\
    currentDoc state = lastDoc sampleDoc sampleEvents /\
    getDecorations (fun _ => true) (currentDoc state) = Ok (decorations state).
Proof.
  assert (H : Delivered sampleDoc sampleEvents).
  { simpl; repeat split; intros; try discriminate; reflexivity. }
  split; [exact H|].
  apply (X9_decorations_in_sync (fun _ => true) sampleDoc sampleEvents H).
Defined.

(** X10: the scheme is compared in lower case.  A link text of the form
    letters and digits followed by [:] (a scheme form) is passed to the
    callback only if it starts with lower-case [http]: the expression
    matches [HTTP://...] or [Http://...], but the body drops them. *)
Theorem X10_scheme_lower_case :
  forall (isValidDomain : jsstring -> bool) (str : jsstring),
    exists cs, candidates isValidDomain str = Ok cs /\
      forall c scheme rest,
        In c cs ->
        cand_match c = scheme ++ cu ":" :: rest ->
        (forall ch, In ch scheme -> isAsciiAlnum ch = true) ->
        startsWith (cand_match c) (lit "http") = true.
Proof.
  intros isValidDomain str.
  destruct (candidates_chain isValidDomain str) as [cs [Hcs _]].
  exists cs; split; [exact Hcs|].
  intros c scheme rest Hc Hform Halnum.
  pose proof (candidates_iterations _ _ Hcs) as Hall.
  rewrite Forall_forall in Hall.
  destruct (Hall c Hc) as [m [s [e It]]].
  destruct (startsWith (cand_match c) (lit "http")) eqn:Hs; [reflexivity|].
  exfalso.
  destruct (it_resolve It) as [u0 [Hres _]].
  unfold resolveUri in Hres; rewrite Hs in Hres; simpl in Hres.
  destruct (group str m domainGroup) as [d|] eqn:Hg; [|discriminate].
  destruct (it_label It) as [k [Hk [Hdot Hlabel]]]; [rewrite Hg; discriminate|].
  pose proof (it_bound It) as Hb.
  assert (Hlen : length (cand_match c) = e - s)
    by (rewrite (it_match It); now apply substring_length).
  assert (Hnth : forall j, j < e - s ->
            nth_error (scheme ++ cu ":" :: rest) j = nth_error str (s + j)).
  { intros j Hj. rewrite <- Hform, (it_match It), nth_error_substring.
    destruct (Nat.ltb_spec j (e - s)); [reflexivity | lia]. }
  assert (Hn : length scheme < e - s)
    by (rewrite <- Hlen, Hform, length_app; simpl; lia).
  destruct (Nat.lt_trichotomy (k - s) (length scheme)) as [Hlt|[Heq|Hgt]].
  - (* the dot would lie inside the scheme *)
    specialize (Hnth (k - s) ltac:(lia)).
    rewrite nth_error_app1 in Hnth by exact Hlt.
    replace (s + (k - s)) with k in Hnth by lia.
    rewrite Hdot in Hnth; apply nth_error_In, Halnum in Hnth.
    discriminate.
  - (* the dot would be the colon *)
    specialize (Hnth (k - s) ltac:(lia)).
    rewrite nth_error_app2, Heq, Nat.sub_diag in Hnth by lia.
    replace (s + length scheme) with k in Hnth by lia.
    rewrite Hdot in Hnth; discriminate.
  - (* the colon would lie inside the label *)
    specialize (Hnth (length scheme) Hn).
    rewrite nth_error_app2, Nat.sub_diag in Hnth by lia.
    destruct (Hlabel (s + length scheme) ltac:(lia)) as [ch [Hch Hal]].
    rewrite Hch in Hnth; simpl in Hnth; injection Hnth as <-.
    discriminate.
Qed.

(* ================================================================== *)
(** * Resuming the scan *)
(* ================================================================== *)

Section ResumeFacts.

Variable isValidDomain : jsstring -> bool.

Lemma stripPunct_shift u t k :
  stripPunct (u, (t + k)%Z) =
  (fst (stripPunct (u, t)), (snd (stripPunct (u, t)) + k)%Z).
Proof.
  unfold stripPunct; destruct (test noFlags u rePunctEnd); simpl;
    f_equal; lia.
Qed.

Lemma stripParen_shift u t k :
  stripParen (u, (t + k)%Z) =
  (fst (stripParen (u, t)), (snd (stripParen (u, t)) + k)%Z).
Proof.
  unfold stripParen;
    destruct (test noFlags u reParenEnd && negb (includes u (lit "(")));
    simpl; f_equal; lia.
Qed.

(** Moving [from] moves the candidate and changes nothing else. *)
Lemma candidateOf_shift m2 domain from k :
  candidateOf isValidDomain m2 domain (from + k)%Z =
  option_map (shiftCandidate k) (candidateOf isValidDomain m2 domain from).
Proof.
  unfold candidateOf.
  destruct (resolveUri isValidDomain m2 domain) as [uri|]; [|reflexivity].
  replace (from + k + Z.of_nat (length m2) + 1)%Z
    with (from + Z.of_nat (length m2) + 1 + k)%Z by lia.
  rewrite stripPunct_shift.
  destruct (stripPunct (uri, (from + Z.of_nat (length m2) + 1)%Z))
    as [u1 t1]; cbn [fst snd].
  rewrite stripParen_shift.
  destruct (stripParen (u1, t1)) as [u2 t2]; reflexivity.
Qed.

Variable str : jsstring.

(** The body of an iteration reads the link text and the domain group of
    the match; the link text ends where the match ends. *)
Lemma body_candidateOf lastIndex m :
  exec flagsUri str reUri lastIndex = Some m ->
  exists s,
    capture 2 (captures (final m)) = Some (s, lastIndexOf m) /\
    lastIndex + 3 <= lastIndexOf m /\ lastIndexOf m <= length str /\
    (forall d e, capture domainGroup (captures (final m)) = Some (d, e) ->
                 e <= lastIndexOf m) /\
    body isValidDomain str m =
    Ok (candidateOf isValidDomain (substring str s (lastIndexOf m))
                    (group str m domainGroup) (Z.of_nat s)).
Proof.
  intros H; apply exec_Some in H; destruct H as [Hi Hm].
  pose proof (uri_link_facts Hm) as [s' [Hs' [_ [Hdom _]]]].
  apply uri_match in Hm; [|lia]. destruct Hm as [s []].
  assert (s' = s) by congruence; subst s'.
  unfold lastIndexOf.
  assert (s >= index m)
    by (destruct um_preceded0 as [[-> _]|[-> _]]; lia).
  exists s; split; [exact um_link0|].
  split; [lia|]. split; [exact um_bound0|].
  split; [intros d e Hde; now apply Hdom in Hde|].
  unfold body, candidateOf, group at 1; rewrite um_link0.
  rewrite (@indexOf_link str (index m) s (endIndex (final m)))
    by (auto; lia).
  destruct (resolveUri isValidDomain (substring str s (endIndex (final m)))
                       (group str m domainGroup)) as [uri|]; [|reflexivity].
  destruct (stripParen _) as [uri' to']; reflexivity.
Qed.

(** One turn of the loop. *)
Lemma scanFrom_unfold lastIndex :
  scanFrom isValidDomain str lastIndex =
  match exec flagsUri str reUri lastIndex with
  | None => []
  | Some m =>
      match body isValidDomain str m with
      | Ok (Some c) => c :: scanFrom isValidDomain str (lastIndexOf m)
      | _ => scanFrom isValidDomain str (lastIndexOf m)
      end
  end.
Proof.
  unfold scanFrom at 1; cbn [candidatesFrom].
  destruct (exec flagsUri str reUri lastIndex) as [m|] eqn:E; [|reflexivity].
  unfold scanFrom.
  destruct (body_facts isValidDomain _ _ E) as [[Hlo Hhi] Hb].
  destruct (@candidatesFrom_total isValidDomain str
              (length str - lastIndexOf m) (lastIndexOf m))
    as [cs [_ Hcs]]; [lia | exact Hhi |].
  rewrite (Hcs (length str)), (Hcs (S (length str))) by lia.
  destruct Hb as [->|[c [s [-> _]]]]; reflexivity.
Qed.

Lemma scanFrom_past_end lastIndex :
  length str < lastIndex -> scanFrom isValidDomain str lastIndex = [].
Proof.
  intros H; rewrite scanFrom_unfold, exec_past_end by exact H; reflexivity.
Qed.

Lemma spans_scanFrom :
  spans isValidDomain str = Ok (map spanOf (scanFrom isValidDomain str 0)).
Proof.
  rewrite spans_candidates; unfold scanFrom.
  destruct (candidates_chain isValidDomain str) as [cs [Hcs _]].
  unfold candidates in *; rewrite Hcs; reflexivity.
Qed.

End ResumeFacts.

(* ================================================================== *)
(** * Scanning a text made of two parts separated by white space *)
(* ================================================================== *)

Section StarAgreement.

(** Two loops of [r*] whose steps agree on the states up to position [n],
    and never go past [n], give the same runs whatever their bounds. *)
Lemma star_agree (step1 step2 : MatchState -> list MatchState) (n : nat) :
  (forall x, endIndex x <= n -> step1 x = step2 x) ->
  (forall x y, endIndex x <= n -> In y (step2 x) ->
               endIndex x <= endIndex y <= n) ->
  forall fuel1 fuel2 x,
    endIndex x <= n -> n - endIndex x <= fuel1 -> n - endIndex x <= fuel2 ->
    star step1 fuel1 x = star step2 fuel2 x.
Proof.
  intros Hstep Hrange.
  assert (Hflat : forall x (f : MatchState -> list MatchState),
            endIndex x = n ->
            flat_map (fun y => if endIndex y =? endIndex x then [] else f y)
                     (step2 x) = []).
  { intros x f Hx. rewrite (flat_map_ext_In _ (fun _ => [])).
    - apply flat_map_nil.
    - intros y Hy; apply Hrange in Hy; [|lia].
      destruct (Nat.eqb_spec (endIndex y) (endIndex x)); [reflexivity | lia]. }
  induction fuel1 as [|fuel1 IH]; intros fuel2 x Hx H1 H2.
  - destruct fuel2 as [|fuel2]; cbn [star]; [reflexivity|].
    rewrite Hflat by lia; reflexivity.
  - destruct fuel2 as [|fuel2]; cbn [star].
    + rewrite Hstep, Hflat by lia; reflexivity.
    + rewrite Hstep by exact Hx. f_equal.
      apply flat_map_ext_In; intros y Hy; apply Hrange in Hy; [|exact Hx].
      destruct (Nat.eqb_spec (endIndex y) (endIndex x)); [reflexivity|].
      apply IH; lia.
Qed.

End StarAgreement.

Section PairedLists.

Context {A B A' B' : Type}.

Lemma Forall2_flat_map_both (R : A -> B -> Prop) (R' : A' -> B' -> Prop)
      (f : A -> list A') (g : B -> list B') l1 l2 :
  Forall2 R l1 l2 ->
  (forall x y, In x l1 -> R x y -> Forall2 R' (f x) (g y)) ->
  Forall2 R' (flat_map f l1) (flat_map g l2).
Proof.
  intros H; induction H as [|x y l1 l2 Hxy H IH]; intros Hfg; simpl;
    [constructor|].
  apply Forall2_app; [apply Hfg; [apply in_eq | exact Hxy]|].
  apply IH; intros x0 y0 Hin; apply Hfg; now apply in_cons.
Qed.

Lemma Forall2_filter_both (R : A -> B -> Prop) (p : A -> bool) (q : B -> bool)
      l1 l2 :
  Forall2 R l1 l2 ->
  (forall x y, R x y -> p x = q y) ->
  Forall2 R (filter p l1) (filter q l2).
Proof.
  intros H Hpq; induction H as [|x y l1 l2 Hxy H IH]; simpl; [constructor|].
  rewrite (Hpq x y Hxy); destruct (q y); [constructor|]; auto.
Qed.

Lemma Forall2_map_both (R : A -> B -> Prop) (R' : A' -> B' -> Prop)
      (f : A -> A') (g : B -> B') l1 l2 :
  Forall2 R l1 l2 ->
  (forall x y, R x y -> R' (f x) (g y)) ->
  Forall2 R' (map f l1) (map g l2).
Proof.
  intros H Hfg; induction H; simpl; constructor; auto.
Qed.

Lemma Forall2_hd (R : A -> B -> Prop) l1 l2 :
  Forall2 R l1 l2 ->
  (hd_error l1 = None /\ hd_error l2 = None) \/
  (exists x y, hd_error l1 = Some x /\ hd_error l2 = Some y /\ R x y).
Proof.
  intros H; destruct H as [|x y l1 l2 Hxy H]; [left; auto | right].
  exists x, y; auto.
Qed.

End PairedLists.

Section ShiftedFacts.

Variable k : nat.

Lemma capture_dropCaptures_full g gs caps :
  capture g (dropCaptures gs caps) =
  if existsb (Nat.eqb g) gs then None else capture g caps.
Proof.
  induction caps as [|[g0 v] caps IH]; simpl.
  - now destruct (existsb (Nat.eqb g) gs).
  - destruct (existsb (Nat.eqb g0) gs) eqn:E0; simpl.
    + rewrite IH. destruct (Nat.eqb_spec g0 g) as [->|_]; [|reflexivity].
      now rewrite E0.
    + rewrite IH. destruct (Nat.eqb_spec g0 g) as [->|_]; [|reflexivity].
      now rewrite E0.
Qed.

Lemma Shifted_advance x x' :
  Shifted k x x' ->
  Shifted k (mkState (S (endIndex x)) (captures x))
            (mkState (S (endIndex x')) (captures x')).
Proof. intros [He Hc]; split; simpl; [lia | exact Hc]. Qed.

Lemma Shifted_clear gs x x' :
  Shifted k x x' -> Shifted k (clearGroups gs x) (clearGroups gs x').
Proof.
  intros [He Hc]; split; simpl; [exact He|].
  intros g Hg; rewrite !capture_dropCaptures_full.
  destruct (existsb (Nat.eqb g) gs); [reflexivity | now apply Hc].
Qed.

Lemma Shifted_setCapture g x x' y y' :
  Shifted k x x' -> Shifted k y y' ->
  Shifted k (setCapture g (endIndex x, endIndex y) y)
            (setCapture g (endIndex x', endIndex y') y').
Proof.
  intros [He _] [He' Hc']; split; [exact He'|].
  intros g0 Hg0.
  destruct (Nat.eq_dec g0 g) as [->|Hne].
  - rewrite !capture_setCapture_same; simpl.
    unfold shiftRange; simpl; now rewrite He, He'.
  - rewrite !capture_setCapture_other by exact Hne. now apply Hc'.
Qed.

Lemma star_shifted (step step' : MatchState -> list MatchState)
      (Q : MatchState -> Prop) :
  (forall x x', Shifted k x x' -> Q x ->
                Forall2 (Shifted k) (step x) (step' x')) ->
  (forall x y, Q x -> In y (step x) -> Q y) ->
  forall fuel x x',
    Shifted k x x' -> Q x ->
    Forall2 (Shifted k) (star step fuel x) (star step' fuel x').
Proof.
  intros Hstep HQ; induction fuel as [|fuel IH]; intros x x' Hx Hq;
    cbn [star].
  - constructor; [exact Hx | constructor].
  - apply Forall2_app; [|constructor; [exact Hx | constructor]].
    assert (Hin : Forall (fun y => Q y) (step x))
      by (apply Forall_forall; intros y Hy; eapply HQ; eauto).
    pose proof (Hstep x x' Hx Hq) as H2.
    induction H2 as [|y y' l l' Hy H2 IH2]; simpl; [constructor|].
    apply Forall_cons_iff in Hin; destruct Hin as [Hqy Hin].
    apply Forall2_app; [|auto].
    destruct Hy as [Hey Hcy]; destruct Hx as [Hex Hcx].
    rewrite Hey, Hex.
    destruct (Nat.eqb_spec (endIndex y) (endIndex x)) as [E|E].
    + rewrite E, Nat.eqb_refl; constructor.
    + destruct (Nat.eqb_spec (endIndex y + k) (endIndex x + k)); [lia|].
      apply IH; [split; auto | exact Hqy].
Qed.

End ShiftedFacts.

Section Concat.

Variable isValidDomain : jsstring -> bool.
Variables a b : jsstring.
Variable ws : CodeUnit.
Hypothesis Hws : isSpace ws = true.

Local Abbreviation whole := (a ++ ws :: b).
Local Abbreviation la := (length a).

Lemma nth_whole_lt i : i < la -> nth_error whole i = nth_error a i.
Proof. intros H; now apply nth_error_app1. Qed.

Lemma nth_whole_n : nth_error whole la = Some ws.
Proof. rewrite nth_error_app2, Nat.sub_diag by lia; reflexivity. Qed.

Lemma nth_whole_ge i : nth_error whole (i + S la) = nth_error b i.
Proof.
  rewrite nth_error_app2 by lia.
  now replace (i + S la - la) with (S i) by lia.
Qed.

Lemma length_whole : length whole = la + S (length b).
Proof. rewrite length_app; reflexivity. Qed.

Lemma atBol_whole_le i :
  i <= la -> atBol flagsUri whole i = atBol flagsUri a i.
Proof.
  intros H; destruct i as [|i]; simpl; [reflexivity|].
  now rewrite nth_whole_lt by lia.
Qed.

Lemma visible_fails_on_ws cs :
  forallb visibleAtom cs = true -> classMatches flagsUri cs ws = false.
Proof.
  intros Hcs; destruct (classMatches flagsUri cs ws) eqn:E; [|reflexivity].
  apply (visible_class_not_space _ _ Hcs) in E; congruence.
Qed.

(** Up to the separator, a term without [$] whose classes hold no white
    space matches in the whole text as in its first part. *)
Lemma runs_prefix r :
  hasEol r = false ->
  forallb (forallb visibleAtom) (classes r) = true ->
  forall x, endIndex x <= la ->
            runs flagsUri whole r x = runs flagsUri a r x.
Proof.
  induction r as [| |cs|r1 IH1 r2 IH2|r1 IH1 r2 IH2|r IH|r IH|r IH|g r IH];
    cbn [hasEol classes]; intros He Hv x Hx;
    try discriminate;
    try (apply orb_false_iff in He; destruct He as [He1 He2]);
    try (rewrite forallb_app in Hv; apply andb_true_iff in Hv;
         destruct Hv as [Hv1 Hv2]).
  - cbn [runs]; now rewrite atBol_whole_le.
  - cbn [runs]. cbn [forallb] in Hv; rewrite andb_true_r in Hv.
    destruct (Nat.eq_dec (endIndex x) la) as [E|E].
    + rewrite E, nth_whole_n, visible_fails_on_ws by exact Hv.
      replace (nth_error a la) with (@None CodeUnit); [reflexivity|].
      symmetry; apply nth_error_None; lia.
    + now rewrite nth_whole_lt by lia.
  - cbn [runs]. rewrite IH1 by auto.
    apply flat_map_ext_In; intros y Hy; apply IH2; auto.
    apply runs_sound, matches_bound in Hy; auto.
  - cbn [runs]. now rewrite IH1, IH2.
  - cbn [runs]. now rewrite IH.
  - cbn [runs]. apply star_agree with (n := la);
      [ intros x' Hx'; now apply IH
      | intros x' y Hx' Hy; apply iter_range in Hy; simpl in Hy; lia
      | exact Hx | rewrite length_whole; lia | lia ].
  - cbn [runs]. rewrite IH by auto.
    apply flat_map_ext_In; intros y Hy.
    assert (Hyn : endIndex y <= la).
    { apply iter_range in Hy; simpl in Hy; lia. }
    apply star_agree with (n := la);
      [ intros x' Hx'; now apply IH
      | intros x' y' Hx' Hy'; apply iter_range in Hy'; simpl in Hy'; lia
      | exact Hyn | rewrite length_whole; lia | lia ].
  - cbn [runs]. now rewrite IH.
Qed.

Lemma atBol_whole_ge i :
  1 <= i -> atBol flagsUri whole (i + S la) = atBol flagsUri b i.
Proof.
  intros H; destruct i as [|i]; [lia|]; simpl.
  now rewrite nth_whole_ge.
Qed.

(** After the separator, a term without [$] matches in the whole text as
    in its second part, [la + 1] positions further; a term with [^] may be
    at the start of the second part, which is no start of line in the
    whole text, so it is left out there. *)
Lemma runs_suffix r :
  hasEol r = false ->
  forall x x',
    Shifted (S la) x x' ->
    hasBol r = false \/ 1 <= endIndex x ->
    Forall2 (Shifted (S la)) (runs flagsUri b r x) (runs flagsUri whole r x').
Proof.
  induction r as [| |cs|r1 IH1 r2 IH2|r1 IH1 r2 IH2|r IH|r IH|r IH|g r IH];
    cbn [hasEol hasBol]; intros He x x' Hx Hq;
    try discriminate;
    try (apply orb_false_iff in He; destruct He as [He1 He2]).
  - cbn [runs]. destruct Hq as [Hq|Hq]; [discriminate|].
    pose proof Hx as [Hex Hcx]. rewrite Hex, atBol_whole_ge by exact Hq.
    destruct (atBol flagsUri b (endIndex x)); [|constructor].
    constructor; [exact Hx | constructor].
  - cbn [runs]. pose proof Hx as [Hex Hcx]. rewrite Hex, nth_whole_ge.
    destruct (nth_error b (endIndex x)) as [c|]; [|constructor].
    destruct (classMatches flagsUri cs c); [|constructor].
    constructor; [|constructor].
    rewrite <- Hex; now apply Shifted_advance.
  - cbn [runs].
    apply Forall2_flat_map_both with (R := Shifted (S la)).
    + apply IH1; auto.
      destruct Hq as [Hq|Hq]; [left | right; exact Hq].
      now apply orb_false_iff in Hq.
    + intros y y' Hy Hyy; apply IH2; auto.
      destruct Hq as [Hq|Hq]; [left; now apply orb_false_iff in Hq | right].
      apply runs_sound, matches_le in Hy; lia.
  - cbn [runs]. apply Forall2_app; [apply IH1 | apply IH2]; auto;
      (destruct Hq as [Hq|Hq]; [left; now apply orb_false_iff in Hq
                               | right; exact Hq]).
  - cbn [runs]. apply Forall2_app; [|constructor; [exact Hx | constructor]].
    apply Forall2_filter_both with (R := Shifted (S la)).
    + apply IH; auto. now apply Shifted_clear.
    + intros y y' [Hey _]; destruct Hx as [Hex _]. rewrite Hey, Hex.
      destruct (Nat.eqb_spec (endIndex y) (endIndex x));
        destruct (Nat.eqb_spec (endIndex y + S la) (endIndex x + S la));
        auto; lia.
  - cbn [runs].
    replace (length whole - endIndex x') with (length b - endIndex x)
      by (destruct Hx as [-> _]; rewrite length_whole; lia).
    apply star_shifted
      with (Q := fun x0 => hasBol r = false \/ 1 <= endIndex x0); auto.
    + intros x0 x0' Hx0 Hq0; apply IH; auto. now apply Shifted_clear.
    + intros x0 y [Hq0|Hq0] Hy; [now left | right].
      apply iter_range in Hy; lia.
  - cbn [runs].
    apply Forall2_flat_map_both with (R := Shifted (S la)).
    + apply IH; auto. now apply Shifted_clear.
    + intros y y' Hy Hyy.
      replace (length whole - endIndex y') with (length b - endIndex y)
        by (destruct Hyy as [-> _]; rewrite length_whole; lia).
      apply star_shifted
        with (Q := fun x0 => hasBol r = false \/ 1 <= endIndex x0); auto.
      * intros x0 x0' Hx0 Hq0; apply IH; auto. now apply Shifted_clear.
      * intros x0 y0 [Hq0|Hq0] Hy0; [now left | right].
        apply iter_range in Hy0; lia.
      * destruct Hq as [Hq|Hq]; [now left | right].
        apply iter_range in Hy; lia.
  - cbn [runs].
    apply Forall2_map_both with (R := Shifted (S la)).
    + apply IH; auto.
    + intros y y' Hyy; now apply Shifted_setCapture.
Qed.

Lemma firstMatch_app fl input r l1 l2 :
  firstMatch fl input r (l1 ++ l2) =
  match firstMatch fl input r l1 with
  | Some m => Some m
  | None => firstMatch fl input r l2
  end.
Proof.
  induction l1 as [|i l1 IH]; simpl; [reflexivity|].
  destruct (matchAt fl input r i); [reflexivity | exact IH].
Qed.

Lemma firstMatch_agree fl input1 input2 r l :
  (forall i, In i l -> matchAt fl input1 r i = matchAt fl input2 r i) ->
  firstMatch fl input1 r l = firstMatch fl input2 r l.
Proof.
  induction l as [|i l IH]; intros H; simpl; [reflexivity|].
  rewrite (H i (in_eq _ _)), IH; [reflexivity|].
  intros j Hj; apply H; now apply in_cons.
Qed.

(** The second factor of the expression: parenthesis 2. *)
Local Abbreviation link := (Group 2 (Alt reScheme reBare)).

(** No link starts at the end of a text. *)
Lemma link_needs_room str x :
  length str <= endIndex x -> runs flagsUri str link x = [].
Proof.
  intros Hx; destruct (runs flagsUri str link x) as [|y l] eqn:E;
    [reflexivity | exfalso].
  assert (Hy : In y (runs flagsUri str link x)) by (rewrite E; apply in_eq).
  apply runs_sound in Hy; inv Hy.
  match goal with H : Matches _ _ (Alt _ _) _ ?z |- _ =>
    pose proof (matches_range H) as Hr; apply link_facts in H;
    destruct H as [Hl _] end.
  lia.
Qed.

(** The runs of the whole expression from a start position, prefix by
    prefix. *)
Lemma runs_reUri str i :
  runs flagsUri str reUri (mkState i []) =
  (if atBol flagsUri str i
   then runs flagsUri str link (setCapture 1 (i, i) (mkState i []))
   else []) ++
  match nth_error str i with
  | Some c =>
      (if classMatches flagsUri [CSpace] c
       then runs flagsUri str link (setCapture 1 (i, S i) (mkState (S i) []))
       else []) ++
      (if classMatches flagsUri [CChar (cu "(")] c
       then runs flagsUri str link (setCapture 1 (i, S i) (mkState (S i) []))
       else [])
  | None => []
  end.
Proof.
  unfold reUri, rePrefix, chr.
  cbn [runs endIndex captures map].
  rewrite map_app, flat_map_app.
  f_equal.
  - destruct (atBol flagsUri str i); cbn [map flat_map];
      [apply app_nil_r | reflexivity].
  - destruct (nth_error str i) as [c|]; [|reflexivity].
    rewrite map_app, flat_map_app. f_equal.
    + destruct (classMatches flagsUri [CSpace] c); cbn [map flat_map];
        [apply app_nil_r | reflexivity].
    + destruct (classMatches flagsUri [CChar (cu "(")] c); cbn [map flat_map];
        [apply app_nil_r | reflexivity].
Qed.

Lemma matchAt_prefix i :
  i < la -> matchAt flagsUri whole reUri i = matchAt flagsUri a reUri i.
Proof.
  intros Hi; unfold matchAt; rewrite !runs_reUri.
  rewrite atBol_whole_le, nth_whole_lt by lia.
  rewrite !(runs_prefix link eq_refl eq_refl) by (simpl; lia).
  reflexivity.
Qed.

Lemma matchAt_end str : matchAt flagsUri str reUri (length str) = None.
Proof.
  unfold matchAt; rewrite runs_reUri.
  rewrite (link_needs_room str) by (simpl; lia).
  replace (nth_error str (length str)) with (@None CodeUnit)
    by (symmetry; apply nth_error_None; lia).
  now destruct (atBol flagsUri str (length str)).
Qed.

(** In the whole text, [exec] finds the matches of the first part first,
    then goes on from the separator. *)
Lemma exec_prefix lastIndex :
  lastIndex <= la ->
  exec flagsUri whole reUri lastIndex =
  match exec flagsUri a reUri lastIndex with
  | Some m => Some m
  | None => exec flagsUri whole reUri la
  end.
Proof.
  intros Hli; unfold exec.
  replace (S (length whole) - lastIndex)
    with ((la - lastIndex) + (S (length whole) - la))
    by (rewrite length_whole; lia).
  replace (S la - lastIndex) with ((la - lastIndex) + 1) by lia.
  rewrite !seq_app, !firstMatch_app.
  replace (lastIndex + (la - lastIndex)) with la by lia.
  rewrite (firstMatch_agree flagsUri whole a).
  - destruct (firstMatch flagsUri a reUri (seq lastIndex (la - lastIndex)));
      [reflexivity|].
    cbn [seq firstMatch]. now rewrite matchAt_end.
  - intros i Hi; apply in_seq in Hi; apply matchAt_prefix; lia.
Qed.

Lemma seq_offset d start len :
  map (fun i => i + d) (seq start len) = seq (start + d) len.
Proof.
  revert start; induction len as [|len IH]; intros start; simpl;
    [reflexivity|].
  f_equal; apply (IH (S start)).
Qed.

Lemma Shifted_first i v v' :
  Shifted (S la) (setCapture 1 v (mkState i []))
          (setCapture 1 v' (mkState (i + S la) [])).
Proof.
  split; [reflexivity|].
  intros g Hg; rewrite !capture_setCapture_other by exact Hg; reflexivity.
Qed.

(** From the second position of the second part on, the matches are those
    of the second part alone. *)
Lemma matchAt_suffix i :
  1 <= i ->
  match matchAt flagsUri b reUri i,
        matchAt flagsUri whole reUri (i + S la) with
  | None, None => True
  | Some y, Some y' => Shifted (S la) y y'
  | _, _ => False
  end.
Proof.
  intros Hi; unfold matchAt.
  assert (H : Forall2 (Shifted (S la))
                (runs flagsUri b reUri (mkState i []))
                (runs flagsUri whole reUri (mkState (i + S la) []))).
  { apply runs_suffix; [reflexivity | | right; exact Hi].
    split; [reflexivity | intros g _; reflexivity]. }
  destruct H; simpl; auto.
Qed.

Lemma firstMatch_suffix l :
  (forall i, In i l -> 1 <= i) ->
  ShiftedExec (S la) (firstMatch flagsUri b reUri l)
              (firstMatch flagsUri whole reUri (map (fun i => i + S la) l)).
Proof.
  induction l as [|i l IH]; intros Hl; simpl; [exact I|].
  pose proof (@matchAt_suffix i (Hl i (in_eq _ _))) as H.
  destruct (matchAt flagsUri b reUri i) as [y|];
    destruct (matchAt flagsUri whole reUri (i + S la)) as [y'|];
    try contradiction; simpl; [exact H|].
  apply IH; intros j Hj; apply Hl; now apply in_cons.
Qed.

Lemma exec_suffix lastIndex :
  1 <= lastIndex ->
  ShiftedExec (S la) (exec flagsUri b reUri lastIndex)
              (exec flagsUri whole reUri (lastIndex + S la)).
Proof.
  intros Hli; unfold exec.
  replace (S (length whole) - (lastIndex + S la))
    with (S (length b) - lastIndex) by (rewrite length_whole; lia).
  rewrite <- seq_offset; apply firstMatch_suffix.
  intros i Hi; apply in_seq in Hi; lia.
Qed.

Lemma space_matches_ws : classMatches flagsUri [CSpace] ws = true.
Proof. unfold classMatches, inClass; simpl; now rewrite Hws. Qed.

Lemma paren_fails_on_ws : classMatches flagsUri [CChar (cu "(")] ws = false.
Proof.
  destruct (classMatches flagsUri [CChar (cu "(")] ws) eqn:E; [|reflexivity].
  apply paren_class in E; subst ws; discriminate.
Qed.

(** At the separator, [exec] finds in the whole text what it finds at the
    start of the second part. *)
Lemma matchAt_separator :
  matchAt flagsUri whole reUri la =
  hd_error (runs flagsUri whole link
                 (setCapture 1 (la, S la) (mkState (S la) []))).
Proof.
  unfold matchAt; rewrite runs_reUri.
  rewrite nth_whole_n, space_matches_ws, paren_fails_on_ws, app_nil_r.
  rewrite (runs_prefix link eq_refl eq_refl) by (simpl; lia).
  rewrite (link_needs_room a) by (simpl; lia).
  now destruct (atBol flagsUri whole la).
Qed.

Lemma exec_separator :
  ShiftedExec (S la) (exec flagsUri b reUri 0)
              (exec flagsUri whole reUri la).
Proof.
  unfold exec.
  replace (S (length whole) - la) with (S (S (length b)))
    by (rewrite length_whole; lia).
  rewrite Nat.sub_0_r; cbn [seq firstMatch].
  rewrite matchAt_separator.
  assert (Hbol : Forall2 (Shifted (S la))
            (runs flagsUri b link (setCapture 1 (0, 0) (mkState 0 [])))
            (runs flagsUri whole link
                  (setCapture 1 (la, S la) (mkState (S la) []))))
    by (apply runs_suffix; [reflexivity | apply (Shifted_first 0) | now left]).
  assert (Hbol' : Forall2 (Shifted (S la))
            (runs flagsUri b link (setCapture 1 (0, 0) (mkState 0 [])))
            (runs flagsUri whole link
                  (setCapture 1 (S la, S la) (mkState (S la) []))))
    by (apply runs_suffix; [reflexivity | apply (Shifted_first 0) | now left]).
  assert (Hchr : Forall2 (Shifted (S la))
            (runs flagsUri b link (setCapture 1 (0, 1) (mkState 1 [])))
            (runs flagsUri whole link
                  (setCapture 1 (S la, S (S la)) (mkState (S (S la)) []))))
    by (apply runs_suffix; [reflexivity | apply (Shifted_first 1) | now left]).
  assert (Hrest : ShiftedExec (S la)
            (firstMatch flagsUri b reUri (seq 1 (length b)))
            (firstMatch flagsUri whole reUri (seq (S (S la)) (length b)))).
  { replace (S (S la)) with (1 + S la) by lia.
    rewrite <- seq_offset; apply firstMatch_suffix.
    intros i Hi; apply in_seq in Hi; lia. }
  unfold matchAt; rewrite !runs_reUri.
  change (atBol flagsUri b 0) with true; cbv iota.
  revert Hbol Hbol'.
  generalize (runs flagsUri whole link
                   (setCapture 1 (S la, S la) (mkState (S la) []))).
  generalize (runs flagsUri whole link
                   (setCapture 1 (la, S la) (mkState (S la) []))).
  generalize (runs flagsUri b link (setCapture 1 (0, 0) (mkState 0 []))).
  intros Lb Lw Lw' Hbol Hbol'.
  destruct Hbol as [|y y' l l' Hy _]; [|exact Hy].
  inversion Hbol'; subst Lw'; clear Hbol'.
  cbn [app hd_error].
  replace (if atBol flagsUri whole (S la) then [] else [])
    with (@nil MatchState) by (now destruct (atBol flagsUri whole (S la))).
  cbn [app].
  rewrite (nth_whole_ge 0 : nth_error whole (S la) = nth_error b 0).
  destruct (nth_error b 0) as [c|]; [|exact Hrest].
  cbn [app hd_error].
  assert (H : Forall2 (Shifted (S la))
    ((if classMatches flagsUri [CSpace] c
      then runs flagsUri b link (setCapture 1 (0, 1) (mkState 1 []))
      else []) ++
     (if classMatches flagsUri [CChar (cu "(")] c
      then runs flagsUri b link (setCapture 1 (0, 1) (mkState 1 []))
      else []))
    ((if classMatches flagsUri [CSpace] c
      then runs flagsUri whole link
             (setCapture 1 (S la, S (S la)) (mkState (S (S la)) []))
      else []) ++
     (if classMatches flagsUri [CChar (cu "(")] c
      then runs flagsUri whole link
             (setCapture 1 (S la, S (S la)) (mkState (S (S la)) []))
      else []))).
  { apply Forall2_app;
      [destruct (classMatches flagsUri [CSpace] c)
      |destruct (classMatches flagsUri [CChar (cu "(")] c)];
      (exact Hchr || constructor). }
  destruct H as [|z z' ? ? Hz _]; [exact Hrest | exact Hz].
Qed.

Lemma substring_whole_prefix s e :
  e <= la -> substring whole s e = substring a s e.
Proof.
  intros He; unfold substring.
  destruct (Nat.le_gt_cases s la) as [Hs|Hs].
  - rewrite skipn_app, firstn_app, length_skipn.
    replace (e - s - (la - s)) with 0 by lia.
    now rewrite firstn_O, app_nil_r.
  - replace (e - s) with 0 by lia; reflexivity.
Qed.

Lemma substring_whole_suffix s e :
  substring whole (s + S la) (e + S la) = substring b s e.
Proof.
  unfold substring.
  replace (e + S la - (s + S la)) with (e - s) by lia.
  f_equal.
  rewrite skipn_app, skipn_all2 by lia.
  replace (s + S la - la) with (S s) by lia; reflexivity.
Qed.

(** The body of an iteration on a match of the first part. *)
Lemma body_prefix lastIndex m :
  lastIndex <= la ->
  exec flagsUri a reUri lastIndex = Some m ->
  body isValidDomain whole m = body isValidDomain a m.
Proof.
  intros Hli E.
  assert (E' : exec flagsUri whole reUri lastIndex = Some m)
    by (now rewrite exec_prefix, E).
  destruct (body_candidateOf isValidDomain _ _ E)
    as [s [Hs [_ [He [Hd ->]]]]].
  destruct (body_candidateOf isValidDomain _ _ E')
    as [s' [Hs' [_ [_ [_ ->]]]]].
  assert (s' = s) by congruence; subst s'.
  rewrite substring_whole_prefix by exact He.
  do 2 f_equal.
  unfold group.
  destruct (capture domainGroup (captures (final m))) as [[d e]|] eqn:Ed;
    [|reflexivity].
  rewrite substring_whole_prefix; [reflexivity|].
  specialize (Hd d e eq_refl); lia.
Qed.

(** The body of an iteration on a match of the second part. *)
Lemma body_suffix lastIndex lastIndex' m m' :
  exec flagsUri b reUri lastIndex = Some m ->
  exec flagsUri whole reUri lastIndex' = Some m' ->
  Shifted (S la) (final m) (final m') ->
  exists oc,
    body isValidDomain b m = Ok oc /\
    body isValidDomain whole m' =
    Ok (option_map (shiftCandidate (Z.of_nat (S la))) oc).
Proof.
  intros E E' [He Hc].
  destruct (body_candidateOf isValidDomain _ _ E)
    as [s [Hs [_ [_ [_ ->]]]]].
  destruct (body_candidateOf isValidDomain _ _ E')
    as [s' [Hs' [_ [_ [_ ->]]]]].
  eexists; split; [reflexivity|]; f_equal.
  rewrite (Hc 2) in Hs' by discriminate.
  rewrite Hs in Hs'; cbn [option_map shiftRange fst snd] in Hs'.
  injection Hs' as Es Ee; subst s'.
  unfold lastIndexOf in Ee.
  assert (Hg : group whole m' domainGroup = group b m domainGroup).
  { unfold group; rewrite (Hc domainGroup) by discriminate.
    destruct (capture domainGroup (captures (final m))) as [[d e]|];
      [|reflexivity].
    cbn [option_map shiftRange fst snd].
    now rewrite substring_whole_suffix. }
  unfold lastIndexOf; rewrite Hg, He.
  rewrite substring_whole_suffix, Nat2Z.inj_add.
  apply candidateOf_shift.
Qed.

(** Up to the separator, the scan of the whole text is the scan of the
    first part. *)
Lemma scan_prefix n :
  forall lastIndex,
    la - lastIndex <= n -> lastIndex <= la ->
    scanFrom isValidDomain whole lastIndex =
    scanFrom isValidDomain a lastIndex ++ scanFrom isValidDomain whole la.
Proof.
  induction n as [|n IH]; intros li Hn Hli.
  - assert (li = la) by lia; subst li.
    rewrite (scanFrom_unfold isValidDomain a la).
    destruct (exec flagsUri a reUri la) as [m|] eqn:E; [|reflexivity].
    destruct (body_facts isValidDomain _ _ E) as [[? ?] _]; lia.
  - rewrite (scanFrom_unfold isValidDomain whole li),
      (scanFrom_unfold isValidDomain a li), exec_prefix by exact Hli.
    destruct (exec flagsUri a reUri li) as [m|] eqn:E.
    + rewrite (body_prefix Hli E).
      destruct (body_facts isValidDomain _ _ E) as [[Hlo Hhi] Hb].
      rewrite (IH (lastIndexOf m)) by lia.
      destruct Hb as [->|[c [s [-> _]]]]; reflexivity.
    + now rewrite <- scanFrom_unfold.
Qed.

(** One turn of the loop in the second part. *)
Lemma scan_step lastIndex lastIndex' :
  ShiftedExec (S la) (exec flagsUri b reUri lastIndex)
              (exec flagsUri whole reUri lastIndex') ->
  (forall e, lastIndex < e ->
     scanFrom isValidDomain whole (e + S la) =
     map (shiftCandidate (Z.of_nat (S la))) (scanFrom isValidDomain b e)) ->
  scanFrom isValidDomain whole lastIndex' =
  map (shiftCandidate (Z.of_nat (S la))) (scanFrom isValidDomain b lastIndex).
Proof.
  intros Hex IH.
  rewrite (scanFrom_unfold isValidDomain whole lastIndex'),
    (scanFrom_unfold isValidDomain b lastIndex).
  destruct (exec flagsUri b reUri lastIndex) as [m|] eqn:E;
    destruct (exec flagsUri whole reUri lastIndex') as [m'|] eqn:E';
    try contradiction; [|reflexivity].
  cbn [ShiftedExec] in Hex.
  destruct (@body_suffix _ _ _ _ E E' Hex) as [oc [-> ->]].
  destruct (body_facts isValidDomain _ _ E) as [[Hlo _] _].
  assert (Hl : lastIndexOf m' = lastIndexOf m + S la) by (apply Hex).
  rewrite Hl, IH by lia.
  destruct oc; reflexivity.
Qed.

(** Past the separator, the scan of the whole text is the scan of the
    second part, moved. *)
Lemma scan_suffix n :
  forall lastIndex,
    length b - lastIndex <= n -> 1 <= lastIndex ->
    scanFrom isValidDomain whole (lastIndex + S la) =
    map (shiftCandidate (Z.of_nat (S la)))
        (scanFrom isValidDomain b lastIndex).
Proof.
  induction n as [|n IH]; intros li Hn Hli;
    (apply scan_step; [now apply exec_suffix|]); intros e He.
  - rewrite !scanFrom_past_end; [reflexivity | lia |].
    rewrite length_whole; lia.
  - apply IH; lia.
Qed.

Lemma scan_whole :
  scanFrom isValidDomain whole 0 =
  scanFrom isValidDomain a 0 ++
  map (shiftCandidate (Z.of_nat (S la))) (scanFrom isValidDomain b 0).
Proof.
  rewrite (scan_prefix (n := la)) by lia; f_equal.
  apply scan_step; [exact exec_separator|].
  intros e He; apply (scan_suffix (n := length b)); lia.
Qed.

End Concat.

(** X11 (iterateUris): scanning two texts joined by one white-space
    character (a blank, a tab, a line break, ...) calls the callback on the
    spans of the first text, then on the spans of the second text moved
    right by the length of the first text plus one.  Links never reach
    across white space, and what follows white space is scanned as if it
    stood at the start of a text. *)
Theorem X11_scan_of_joined_texts (isValidDomain : jsstring -> bool)
        (a b : jsstring) (ws : CodeUnit) :
  isSpace ws = true ->
  spans isValidDomain (a ++ ws :: b) =
  Ok (spanList isValidDomain a ++
      map (shiftSpan (Z.of_nat (S (length a)))) (spanList isValidDomain b)).
Proof.
  intros Hws; unfold spanList.
  rewrite !spans_scanFrom, (@scan_whole isValidDomain a b ws Hws).
  rewrite map_app, !map_map; reflexivity.
Qed.

Lemma X11_scan_of_joined_texts_witness :
  isSpace (cu " ") = true /\
  spans (fun _ => true) (lit "see a.co," ++ cu " " :: lit "(http://b.io)") =
  Ok (spanList (fun _ => true) (lit "see a.co,") ++
      map (shiftSpan (Z.of_nat (S (length (lit "see a.co,")))))
          (spanList (fun _ => true) (lit "(http://b.io)"))).
Proof.
  split; [reflexivity|].
  apply (@X11_scan_of_joined_texts (fun _ => true) (lit "see a.co,")
           (lit "(http://b.io)") (cu " ")); reflexivity.
Defined.
